(** * sst-cpputils: AlignedAllocator and DynArray

    A shallow embedding of
      - include/sst/cpputils/aligned_allocator.h  (AlignedAllocator)
      - include/sst/cpputils/dyn_array.h          (DynArray)

    C++ raw memory is modelled by an explicit store: the blocks handed out
    by [::operator new], each a row of element slots that are either raw
    ([None]) or hold a live object ([Some v]).  Member functions are
    programs of a small state-and-exception monad over that store; an
    exception carries the store as it was when it was thrown, and undefined
    behaviour (reading or destroying an object that was never constructed,
    releasing a block twice) is a third, terminal outcome. *)

From Stdlib Require Import ZArith Lia DecimalString.
From stdpp Require Import base option list gmap strings.

Open Scope Z_scope.

(** ** The platform and the element type *)

(** What the compiler fixes: the width of [std::size_t] and the predefined
    macro [__STDCPP_DEFAULT_NEW_ALIGNMENT__]. *)
Class Platform := {
  size_type_bits : Z;
  STDCPP_DEFAULT_NEW_ALIGNMENT : Z
}.

(** [std::numeric_limits<size_type>::max()] *)
Definition size_type_max `{Platform} : Z := 2 ^ size_type_bits - 1.

(** Unsigned arithmetic on [size_type] wraps around. *)
Definition wrap `{Platform} (x : Z) : Z := x mod 2 ^ size_type_bits.

Definition is_pow2 (a : Z) : Prop := exists k, 0 <= k /\ a = 2 ^ k.

Class PlatformOk `{Platform} : Prop := {
  size_type_bits_pos : 0 < size_type_bits;
  default_alignment_pow2 : is_pow2 STDCPP_DEFAULT_NEW_ALIGNMENT
}.

(** The exceptions the two headers throw, and the ones of the element type. *)
Inductive exn :=
  | bad_alloc
  | domain_error (what : string)
  | out_of_range (what : string)
  | user_exception (code : Z).

(** The ways a run leaves defined behaviour. *)
Inductive ub :=
  | ReadUnconstructed
  | DestroyUnconstructed
  | BadPointer
  | InvalidFree
  | InvalidRange
  | NoSuchObject.

(** The result of running a constructor of the element type. *)
Inductive res (A : Type) :=
  | Val (a : A)
  | Exc (e : exn).
Arguments Val {A} a.
Arguments Exc {A} e.

(** The element type [T] as the container sees it: its size and its
    constructors.  A constructor may throw, and may depend on how many
    constructors of [T] ran before it (an instrumented or counting type), so
    each takes that count.  [construct args] is [T(args...)] for a forwarded
    pack, [no_args] the empty pack, [copy_construct] is [T(const T&)]. *)
Class Element (T : Type) := {
  sizeof : Z;
  Args : Type;
  no_args : Args;
  construct : Args -> nat -> res T;
  copy_construct : nat -> T -> res T
}.

(** [std::to_string] on a [size_type]. *)
Definition to_string (i : Z) : string :=
  NilZero.string_of_uint (N.to_uint (Z.to_N i)).

(** ** The store *)

(** A block obtained from [::operator new]: its extent in bytes, the
    alignment it was requested with ([None] for the plain form) and its
    element slots. *)
Record Block (T : Type) := mkBlock {
  blk_bytes : Z;
  blk_align : option Z;
  blk_slots : list (option T)
}.
Arguments mkBlock {T}.
Arguments blk_bytes {T}.
Arguments blk_align {T}.
Arguments blk_slots {T}.

(** The store: the live blocks by address (0 is [nullptr]), the next unused
    address, the bytes the memory system can still hand out, the number of
    constructor and destructor calls of [T] so far, and the container
    objects by identity. *)
Record World (T Obj : Type) := mkWorld {
  heap_blocks : gmap Z (Block T);
  heap_next : Z;
  heap_free : Z;
  ctor_calls : nat;
  dtor_calls : nat;
  objects : gmap nat Obj
}.
Arguments mkWorld {T Obj}.
Arguments heap_blocks {T Obj}.
Arguments heap_next {T Obj}.
Arguments heap_free {T Obj}.
Arguments ctor_calls {T Obj}.
Arguments dtor_calls {T Obj}.
Arguments objects {T Obj}.

Definition with_heap {T Obj} (w : World T Obj) (bs : gmap Z (Block T))
    (next free : Z) : World T Obj :=
  mkWorld bs next free (ctor_calls w) (dtor_calls w) (objects w).

Definition with_blocks {T Obj} (w : World T Obj) (bs : gmap Z (Block T))
    : World T Obj :=
  mkWorld bs (heap_next w) (heap_free w) (ctor_calls w) (dtor_calls w)
          (objects w).

Definition with_objects {T Obj} (w : World T Obj) (os : gmap nat Obj)
    : World T Obj :=
  mkWorld (heap_blocks w) (heap_next w) (heap_free w) (ctor_calls w)
          (dtor_calls w) os.

Definition count_ctor {T Obj} (w : World T Obj) : World T Obj :=
  mkWorld (heap_blocks w) (heap_next w) (heap_free w) (S (ctor_calls w))
          (dtor_calls w) (objects w).

Definition count_dtor {T Obj} (w : World T Obj) : World T Obj :=
  mkWorld (heap_blocks w) (heap_next w) (heap_free w) (ctor_calls w)
          (S (dtor_calls w)) (objects w).

(** ** The monad of C++ member functions *)

Inductive outcome (W A : Type) :=
  | Ret (a : A) (w : W)
  | Throw (e : exn) (w : W)
  | Undef (u : ub).
Arguments Ret {W A} a w.
Arguments Throw {W A} e w.
Arguments Undef {W A} u.

Definition M (W A : Type) : Type := W -> outcome W A.

Definition ret {W A} (a : A) : M W A := fun w => Ret a w.

Definition bind {W A B} (m : M W A) (k : A -> M W B) : M W B :=
  fun w => match m w with
           | Ret a w' => k a w'
           | Throw e w' => Throw e w'
           | Undef u => Undef u
           end.

Definition throw {W A} (e : exn) : M W A := fun w => Throw e w.

Definition undefined {W A} (u : ub) : M W A := fun _ => Undef u.

(** [try { m } catch (...) { h }] *)
Definition try_catch {W A} (m : M W A) (h : exn -> M W A) : M W A :=
  fun w => match m w with
           | Throw e w' => h e w'
           | o => o
           end.

Declare Scope cpp_scope.
Delimit Scope cpp_scope with cpp.
Notation "'let!' x ':=' m 'in' k" := (bind m (fun x => k))
  (at level 10, x name, m at level 100, k at level 200) : cpp_scope.
Notation "m ';;' k" := (bind m (fun _ => k))
  (at level 100, k at level 200, right associativity) : cpp_scope.
Open Scope cpp_scope.

(** [for (std::size_t i = from; i < from + count; i++) body(i)] *)
Fixpoint for_loop {W} (from : nat) (count : nat) (body : nat -> M W unit)
    : M W unit :=
  match count with
  | O => ret tt
  | S c => body from ;; for_loop (S from) c body
  end.

(** ** The memory system: [::operator new] and [::operator delete] *)

Section Memory.
Context `{Platform} {T : Type} `{Element T} {Obj : Type}.

Local Abbreviation W := (World T Obj).

Definition align_up (x a : Z) : Z := (x + a - 1) / a * a.

Definition requested_alignment (al : option Z) : Z :=
  match al with
  | None => STDCPP_DEFAULT_NEW_ALIGNMENT
  | Some a => a
  end.

(** [::operator new(bytes)] ([al = None]) and
    [::operator new(bytes, std::align_val_t(a))] ([al = Some a]): throws
    [std::bad_alloc] when the memory system cannot satisfy the request,
    and otherwise returns a fresh, non-null address aligned as requested,
    whose storage is raw. *)
Definition operator_new (bytes : Z) (al : option Z) : M W Z :=
  fun w =>
    if heap_free w <? bytes then Throw bad_alloc w
    else
      let p := align_up (heap_next w) (requested_alignment al) in
      let b := mkBlock bytes al (replicate (Z.to_nat (bytes / sizeof)) None) in
      Ret p (with_heap w (<[p := b]> (heap_blocks w))
                       (p + Z.max bytes 1) (heap_free w - bytes)).

Definition same_alignment (x y : option Z) : bool :=
  match x, y with
  | None, None => true
  | Some a, Some b => a =? b
  | _, _ => false
  end.

(** The sized forms of [::operator delete]: a null pointer is ignored; any
    other pointer must be a live block obtained with the same form, byte
    count and alignment. *)
Definition operator_delete (p : Z) (bytes : Z) (al : option Z) : M W unit :=
  fun w =>
    if p =? 0 then Ret tt w
    else
      match heap_blocks w !! p with
      | Some b =>
          if (blk_bytes b =? bytes) && same_alignment (blk_align b) al
          then Ret tt (with_heap w (delete p (heap_blocks w)) (heap_next w)
                                 (heap_free w + bytes))
          else Undef InvalidFree
      | None => Undef InvalidFree
      end.

(** Reading the object in slot [i] of block [p]. *)
Definition load (p : Z) (i : nat) : M W T :=
  fun w =>
    match heap_blocks w !! p with
    | Some b =>
        match blk_slots b !! i with
        | Some (Some v) => Ret v w
        | Some None => Undef ReadUnconstructed
        | None => Undef BadPointer
        end
    | None => Undef BadPointer
    end.

(** [::new (p + i) T(...)] once the constructor has produced [v]. *)
Definition placement_new (p : Z) (i : nat) (v : T) : M W unit :=
  fun w =>
    match heap_blocks w !! p with
    | Some b =>
        if decide (i < length (blk_slots b))%nat
        then Ret tt (with_blocks w
               (<[p := mkBlock (blk_bytes b) (blk_align b)
                               (<[i := Some v]> (blk_slots b))]>
                  (heap_blocks w)))
        else Undef BadPointer
    | None => Undef BadPointer
    end.

(** Running a constructor of [T]: it sees the number of earlier
    constructor calls, and may throw. *)
Definition run_ctor (c : nat -> res T) : M W T :=
  fun w =>
    match c (ctor_calls w) with
    | Val v => Ret v (count_ctor w)
    | Exc e => Throw e (count_ctor w)
    end.

(** [std::allocator_traits<A>::construct(alloc_, p + i, args...)], which
    for allocators without a [construct] member is a placement new. *)
Definition construct_at (p : Z) (i : nat) (c : nat -> res T) : M W unit :=
  let! v := run_ctor c in placement_new p i v.

(** [std::allocator_traits<A>::destroy(alloc_, p + i)]: runs the
    destructor of the object in the slot. *)
Definition destroy_at (p : Z) (i : nat) : M W unit :=
  fun w =>
    match heap_blocks w !! p with
    | Some b =>
        match blk_slots b !! i with
        | Some (Some _) =>
            Ret tt (count_dtor (with_blocks w
              (<[p := mkBlock (blk_bytes b) (blk_align b)
                              (<[i := None]> (blk_slots b))]>
                 (heap_blocks w))))
        | Some None => Undef DestroyUnconstructed
        | None => Undef BadPointer
        end
    | None => Undef BadPointer
    end.

End Memory.

(** ** aligned_allocator.h *)

Module AlignedAllocator.

(** [template <typename value_t, std::size_t alignment_v> class
    AlignedAllocator]: the class has no data members. *)
Inductive t (value_t : Type) (alignment_v : Z) : Type := Build.
Arguments Build {value_t alignment_v}.

(** [static constexpr std::size_t alignment = alignment_v;] *)
Definition alignment {value_t alignment_v} (_ : t value_t alignment_v) : Z :=
  alignment_v.

(** The converting constructor from any other instantiation. *)
Definition convert {value_t alignment_v other_value_type other_alignment}
    (_ : t other_value_type other_alignment) : t value_t alignment_v :=
  Build.

(** [operator==]: [return alignment == alignment2;] *)
Definition op_eq {value_t alignment_v value_type2 alignment2}
    (_ : t value_t alignment_v) (_ : t value_type2 alignment2) : bool :=
  alignment_v =? alignment2.

(** [operator!=]: [return alignment != alignment2;] *)
Definition op_ne {value_t alignment_v value_type2 alignment2}
    (_ : t value_t alignment_v) (_ : t value_type2 alignment2) : bool :=
  negb (alignment_v =? alignment2).

Section Members.
Context `{Platform} {value_type : Type} `{Element value_type}
        {Obj : Type} {alignment_v : Z}.

Local Abbreviation W := (World value_type Obj).

(** [max_size] of [allocate]. *)
Definition max_size : Z := size_type_max / sizeof.

(** Which form of [::operator new] / [::operator delete] the
    [if constexpr] selects. *)
Definition new_form : option Z :=
  if alignment_v <=? STDCPP_DEFAULT_NEW_ALIGNMENT then None
  else Some alignment_v.

Definition allocate (self : t value_type alignment_v) (n : Z) : M W Z :=
  if n >? max_size then throw bad_alloc
  else
    let bytes_to_allocate := wrap (n * sizeof) in
    if alignment_v <=? STDCPP_DEFAULT_NEW_ALIGNMENT
    then operator_new bytes_to_allocate None
    else operator_new bytes_to_allocate (Some alignment_v).

Definition deallocate (self : t value_type alignment_v) (p : Z) (n : Z)
    : M W unit :=
  let bytes_to_deallocate := wrap (n * sizeof) in
  if alignment_v <=? STDCPP_DEFAULT_NEW_ALIGNMENT
  then operator_delete p bytes_to_deallocate None
  else operator_delete p bytes_to_deallocate (Some alignment_v).

(** [std::allocator_traits<A>::select_on_container_copy_construction]:
    the allocator declares no such member, so the traits return a copy
    of the argument. *)
Definition select_on_container_copy_construction
    (a : t value_type alignment_v) : t value_type alignment_v := a.

End Members.

Arguments max_size {_} value_type {_}.
Arguments new_form {_} alignment_v.

End AlignedAllocator.

(** ** dyn_array.h *)

Module DynArray.

(** The data members: [Allocator alloc_; T *mem_; std::size_t n_;] *)
Record t (T : Type) (alignment_v : Z) := mk {
  alloc_ : AlignedAllocator.t T alignment_v;
  mem_ : Z;
  n_ : Z
}.
Arguments mk {T alignment_v}.
Arguments alloc_ {T alignment_v}.
Arguments mem_ {T alignment_v}.
Arguments n_ {T alignment_v}.

(** [iterator] is [pointer]: an element position [off] in the block at
    [base].  A forward iterator of some other sequence, as the range
    constructor and the initializer list take them, is positioned in front
    of the elements still to come. *)
Inductive iterator (T : Type) :=
  | PtrIt (base : Z) (off : nat)
  | SeqIt (rest : list T).
Arguments PtrIt {T}.
Arguments SeqIt {T}.

Section Members.
Context `{Platform} {T : Type} `{Element T} {alignment_v : Z}.

Local Abbreviation A := (AlignedAllocator.t T alignment_v).
Local Abbreviation Self := (t T alignment_v).
Local Abbreviation W := (World T Self).

(** *** Access to the members of the object [this] *)

Definition get (this : nat) : M W Self :=
  fun w => match objects w !! this with
           | Some o => Ret o w
           | None => Undef NoSuchObject
           end.

Definition put (this : nat) (o : Self) : M W unit :=
  fun w => Ret tt (with_objects w (<[this := o]> (objects w))).

Definition set_alloc_ (this : nat) (a : A) : M W unit :=
  let! o := get this in put this (mk a (mem_ o) (n_ o)).

Definition set_mem_ (this : nat) (p : Z) : M W unit :=
  let! o := get this in put this (mk (alloc_ o) p (n_ o)).

Definition set_n_ (this : nat) (n : Z) : M W unit :=
  let! o := get this in put this (mk (alloc_ o) (mem_ o) n).

(** *** Iterators and the standard algorithms on raw storage *)

(** [*it] *)
Definition deref (it : iterator T) : M W T :=
  match it with
  | PtrIt base off => load base off
  | SeqIt (x :: _) => ret x
  | SeqIt [] => undefined InvalidRange
  end.

(** [++it] *)
Definition next (it : iterator T) : iterator T :=
  match it with
  | PtrIt base off => PtrIt base (S off)
  | SeqIt rest => SeqIt (tail rest)
  end.

(** [std::distance(first, last)]; [last] must be reachable from
    [first]. *)
Definition distance (first last : iterator T) : M W Z :=
  match first, last with
  | PtrIt b1 o1, PtrIt b2 o2 =>
      if (b1 =? b2) && (o1 <=? o2)%nat
      then ret (Z.of_nat o2 - Z.of_nat o1)
      else undefined InvalidRange
  | SeqIt l1, SeqIt l2 =>
      if (length l2 <=? length l1)%nat
      then ret (Z.of_nat (length l1) - Z.of_nat (length l2))
      else undefined InvalidRange
  | _, _ => undefined InvalidRange
  end.

(** [std::destroy(first, first + count)] on the block at [base]. *)
Definition destroy_range (base : Z) (count : nat) : M W unit :=
  for_loop 0 count (fun i => destroy_at base i).

(** The loop of [std::uninitialized_copy]: [cur] elements are already
    constructed at [result]; if a copy constructor throws, they are
    destroyed and the exception is thrown again. *)
Fixpoint uninitialized_copy_loop (first : iterator T) (count : nat)
    (result : Z) (cur : nat) : M W unit :=
  match count with
  | O => ret tt
  | S c =>
      let! x := deref first in
      try_catch (construct_at result cur (fun k => copy_construct k x))
                (fun e => destroy_range result cur ;; throw e) ;;
      uninitialized_copy_loop (next first) c result (S cur)
  end.

(** [std::uninitialized_copy(first, last, result)], [result] the start
    of a block. *)
Definition uninitialized_copy (first last : iterator T) (result : Z)
    : M W unit :=
  let! len := distance first last in
  uninitialized_copy_loop first (Z.to_nat len) result 0.

(** [std::uninitialized_fill(first, first + count, v)] on the block at
    [base], with the same clean-up. *)
Fixpoint uninitialized_fill_loop (count : nat) (base : Z) (cur : nat)
    (v : T) : M W unit :=
  match count with
  | O => ret tt
  | S c =>
      try_catch (construct_at base cur (fun k => copy_construct k v))
                (fun e => destroy_range base cur ;; throw e) ;;
      uninitialized_fill_loop c base (S cur) v
  end.

(** *** Private members *)

(** [void deallocate()] *)
Definition deallocate (this : nat) : M W unit :=
  let! o := get this in
  if mem_ o =? 0 then ret tt
  else
    for_loop 0 (Z.to_nat (n_ o)) (fun i => destroy_at (mem_ o) i) ;;
    AlignedAllocator.deallocate (alloc_ o) (mem_ o) (n_ o).

(** [void check_range(size_type i)] *)
Definition check_range (this : nat) (i : Z) : M W unit :=
  let! o := get this in
  if mem_ o =? 0 then throw (domain_error "uninitialized DynArray")
  else if i >=? n_ o
  then throw (out_of_range ("elt " +:+ to_string i +:+ ", size " +:+
                            to_string (n_ o)))
  else ret tt.

(** *** Constructors: each yields the members of the new object *)

(** [DynArray(std::size_t n, Allocator a, ConstructionArgs &&...args)] *)
Definition ctor_sized (n : Z) (a : A) (args : Args) : M W Self :=
  let! p := AlignedAllocator.allocate a n in
  for_loop 0 (Z.to_nat n) (fun i => construct_at p i (construct args)) ;;
  ret (mk a p n).

(** [DynArray(std::size_t n, const T &v, Allocator a)] *)
Definition ctor_fill (n : Z) (v : T) (a : A) : M W Self :=
  let! p := AlignedAllocator.allocate a n in
  uninitialized_fill_loop (Z.to_nat n) p 0 v ;;
  ret (mk a p n).

(** [DynArray(Iterator begin, Iterator end, Allocator a)] *)
Definition ctor_range (first last : iterator T) (a : A) : M W Self :=
  let! n := distance first last in
  let! p := AlignedAllocator.allocate a n in
  try_catch (uninitialized_copy first last p)
            (fun e => AlignedAllocator.deallocate a p n ;; throw e) ;;
  ret (mk a p n).

(** [DynArray(std::initializer_list<T> init_list, Allocator a)]: the
    elements of an initializer list are const, so moving from them
    selects the copy constructor. *)
Definition ctor_init_list (init_list : list T) (a : A) : M W Self :=
  let n := Z.of_nat (length init_list) in
  let! p := AlignedAllocator.allocate a n in
  uninitialized_copy (SeqIt init_list) (SeqIt []) p ;;
  ret (mk a p n).

(** [iterator begin()] and [iterator end()] *)
Definition begin_ (this : nat) : M W (iterator T) :=
  let! o := get this in ret (PtrIt (mem_ o) 0).

Definition end_ (this : nat) : M W (iterator T) :=
  let! o := get this in ret (PtrIt (mem_ o) (Z.to_nat (n_ o))).

(** [DynArray(const DynArray &that, Allocator a)] *)
Definition ctor_copy_with (that : nat) (a : A) : M W Self :=
  let! b := begin_ that in
  let! e := end_ that in
  ctor_range b e a.

(** [DynArray(const DynArray &that)] *)
Definition ctor_copy (that : nat) : M W Self :=
  let! o := get that in
  ctor_copy_with that
    (AlignedAllocator.select_on_container_copy_construction (alloc_ o)).

(** [DynArray(DynArray &&that)] *)
Definition ctor_move (that : nat) : M W Self :=
  let! o := get that in
  let a := alloc_ o in
  let! m := (let! o := get that in ret (mem_ o)) in
  set_mem_ that 0 ;;
  let! n := (let! o := get that in ret (n_ o)) in
  set_n_ that 0 ;;
  ret (mk a m n).

(** Giving a freshly constructed object the identity [this]; when the
    constructor throws there is no object. *)
Definition construct_object (this : nat) (c : M W Self) : M W unit :=
  let! o := c in put this o.

(** [~DynArray()], after which the object is gone. *)
Definition destructor (this : nat) : M W unit :=
  deallocate this ;;
  fun w => Ret tt (with_objects w (delete this (objects w))).

(** *** Assignment *)

(** [DynArray &operator=(const DynArray &that)] *)
Definition copy_assign (this that : nat) : M W unit :=
  deallocate this ;;
  (let! o := get that in set_mem_ this (mem_ o)) ;;
  (let! o := get that in
   set_alloc_ this
     (AlignedAllocator.select_on_container_copy_construction (alloc_ o))) ;;
  (let! o := get that in set_n_ this (n_ o)) ;;
  (let! o := get this in
   let! p := AlignedAllocator.allocate (alloc_ o) (n_ o) in
   set_mem_ this p) ;;
  let! b := begin_ that in
  let! e := end_ that in
  let! o := get this in
  uninitialized_copy b e (mem_ o).

(** [DynArray &operator=(DynArray &&that)] *)
Definition move_assign (this that : nat) : M W unit :=
  deallocate this ;;
  (let! o := get that in set_alloc_ this (alloc_ o)) ;;
  (let! o := get that in set_mem_ this (mem_ o)) ;;
  set_mem_ that 0 ;;
  (let! o := get that in set_n_ this (n_ o)) ;;
  set_n_ that 0.

(** *** Element access *)

(** [std::size_t size() const] and [bool empty() const] *)
Definition size (this : nat) : M W Z :=
  let! o := get this in ret (n_ o).

Definition empty (this : nat) : M W bool :=
  let! o := get this in ret (n_ o =? 0).

(** [reference operator[](size_type i)]: the reference [mem_[i]] is the
    position of the element. *)
Definition op_index (this : nat) (i : Z) : M W (iterator T) :=
  check_range this i ;;
  let! o := get this in ret (PtrIt (mem_ o) (Z.to_nat i)).

(** [reference at(size_type i)] *)
Definition at_ (this : nat) (i : Z) : M W (iterator T) :=
  check_range this i ;;
  let! o := get this in ret (PtrIt (mem_ o) (Z.to_nat i)).

(** [reference front()] *)
Definition front (this : nat) : M W (iterator T) :=
  let! e := empty this in
  if e then throw (domain_error "uninitialized DynArray")
  else let! o := get this in ret (PtrIt (mem_ o) 0).

(** [reference back()] *)
Definition back (this : nat) : M W (iterator T) :=
  let! e := empty this in
  if e then throw (domain_error "uninitialized DynArray")
  else let! o := get this in ret (PtrIt (mem_ o) (Z.to_nat (n_ o - 1))).

(** [void reset(std::size_t n)] *)
Definition reset (this : nat) (n : Z) : M W unit :=
  deallocate this ;;
  set_n_ this n ;;
  (let! o := get this in
   let! p := AlignedAllocator.allocate (alloc_ o) (n_ o) in
   set_mem_ this p) ;;
  for_loop 0 (Z.to_nat n)
    (fun i => let! o := get this in
              construct_at (mem_ o) i (construct no_args)).

End Members.

End DynArray.

(** ** Specification predicates *)

Section Predicates.
Context `{Platform} {T : Type} `{Element T} {Obj : Type}.

(** Addresses are handed out upwards from a positive start: every live
    block lies strictly between [nullptr] and the next unused address. *)
Definition wf_heap (w : World T Obj) : Prop :=
  0 < heap_next w /\
  forall p b, heap_blocks w !! p = Some b -> 0 < p < heap_next w.

(** What a caller of [allocate(n)] on an allocator of alignment [a] can
    observe, stated without reference to the form of [::operator new] that
    served the request: either [std::bad_alloc] with the store untouched, or
    a fresh non-null address divisible by [a] whose block spans [n * sizeof]
    bytes, that is [n] raw slots. *)
Definition allocate_contract (a n : Z) (w : World T Obj)
    (out : outcome (World T Obj) Z) : Prop :=
  match out with
  | Throw e w' =>
      e = bad_alloc /\ w' = w /\
      (size_type_max < n * sizeof \/ heap_free w < n * sizeof)
  | Ret p w' =>
      n * sizeof <= size_type_max /\ n * sizeof <= heap_free w /\
      p <> 0 /\ (a | p) /\ heap_blocks w !! p = None /\
      exists b, heap_blocks w' = <[p := b]> (heap_blocks w) /\
                blk_bytes b = n * sizeof /\
                blk_slots b = replicate (Z.to_nat n) None /\
                heap_free w' = heap_free w - n * sizeof /\
                objects w' = objects w /\
                ctor_calls w' = ctor_calls w /\ dtor_calls w' = dtor_calls w
  | Undef _ => False
  end.

End Predicates.

(** ** Specification predicates for DynArray *)

Module DynArraySpec.
Import DynArray.

Section Invariant.
Context `{Platform} {T : Type} `{Element T} {alignment_v : Z}.

Local Abbreviation Self := (DynArray.t T alignment_v).
Local Abbreviation W := (World T Self).

(** The object [o] owns a block with exactly the live elements [vs], or is
    in the empty/uninitialized state and [vs] is empty. *)
Definition holds (w : W) (o : Self) (vs : list T) : Prop :=
  (mem_ o = 0 /\ n_ o = 0 /\ vs = []) \/
  (mem_ o <> 0 /\ n_ o = Z.of_nat (length vs) /\
   exists b, heap_blocks w !! mem_ o = Some b /\
             blk_bytes b = wrap (n_ o * sizeof) /\
             blk_align b = AlignedAllocator.new_form alignment_v /\
             blk_slots b = Some <$> vs).

(** The structural invariant of the data model. *)
Definition obj_inv (w : W) (o : Self) : Prop := exists vs, holds w o vs.

(** The state left behind by a move. *)
Definition moved_from (w : W) (this : nat) : Prop :=
  exists o, objects w !! this = Some o /\ mem_ o = 0 /\ n_ o = 0.

(** Whether an outcome is the out-of-range failure naming index [i] and
    size [n]. *)
Definition reports_out_of_range {A} (i n : Z) (out : outcome W A) : bool :=
  match out with
  | Throw (out_of_range what) _ =>
      String.eqb what ("elt " +:+ to_string i +:+ ", size " +:+ to_string n)
  | _ => false
  end.

(** The values [vs] can be read, in order, through the iterator [first]. *)
Definition readable (w : W) (first : iterator T) (vs : list T) : Prop :=
  match first with
  | PtrIt base off =>
      exists b, heap_blocks w !! base = Some b /\
                forall j v, vs !! j = Some v ->
                            blk_slots b !! (off + j)%nat = Some (Some v)
  | SeqIt rest => exists rest', rest = vs ++ rest'
  end.

(** The iterator points into the block at [p]. *)
Definition points_into (first : iterator T) (p : Z) : Prop :=
  match first with
  | PtrIt base _ => base = p
  | SeqIt _ => False
  end.

(** [last] is [length vs] steps after [first]. *)
Definition spans (first last : iterator T) (vs : list T) : Prop :=
  match first, last with
  | PtrIt b1 o1, PtrIt b2 o2 => b1 = b2 /\ o2 = (o1 + length vs)%nat
  | SeqIt l1, SeqIt l2 => l1 = vs ++ l2
  | _, _ => False
  end.

End Invariant.

End DynArraySpec.

(** ** dyn_array.h: the remaining members *)

(** What the remaining members need of the element type: its copy
    assignment operator [T &operator=(const T &)], which from the value of
    the target and the value of the source gives the new value of the
    target or throws, and its [bool operator==(const T &, const T &)]. *)
Class Assignable (T : Type) := {
  assign : T -> T -> res T
}.

Class EqualityComparable (T : Type) := {
  elem_eq : T -> T -> bool
}.

Module DynArrayRest.
Import DynArray.

(** [reverse_iterator] is [std::reverse_iterator<iterator>]: it holds the
    position one past the element it refers to. *)
Inductive reverse_iterator (T : Type) :=
  | RevIt (current : iterator T).
Arguments RevIt {T}.

Section Members.
Context `{Platform} {T : Type} `{Element T} `{Assignable T}
        `{EqualityComparable T} {alignment_v : Z}.

Local Abbreviation Self := (DynArray.t T alignment_v).
Local Abbreviation W := (World T Self).

(** [pointer data()] *)
Definition data (this : nat) : M W Z :=
  let! o := get this in ret (mem_ o).

(** [const_iterator cbegin() const] and [const_iterator cend() const] *)
Definition cbegin (this : nat) : M W (iterator T) := begin_ this.

Definition cend (this : nat) : M W (iterator T) := end_ this.

(** [reverse_iterator rbegin()] and [reverse_iterator rend()] *)
Definition rbegin (this : nat) : M W (reverse_iterator T) :=
  let! e := end_ this in ret (RevIt e).

Definition rend (this : nat) : M W (reverse_iterator T) :=
  let! b := begin_ this in ret (RevIt b).

Definition crbegin (this : nat) : M W (reverse_iterator T) := rbegin this.

Definition crend (this : nat) : M W (reverse_iterator T) := rend this.

(** [*r] on a reverse iterator reads the element in front of the position
    it holds; a forward-only position cannot be stepped back. *)
Definition rderef (r : reverse_iterator T) : M W T :=
  match r with
  | RevIt (PtrIt base (S off)) => load base off
  | RevIt _ => undefined InvalidRange
  end.

(** [++r] on a reverse iterator steps the position back. *)
Definition rnext (r : reverse_iterator T) : reverse_iterator T :=
  match r with
  | RevIt (PtrIt base off) => RevIt (PtrIt base (pred off))
  | RevIt (SeqIt rest) => RevIt (SeqIt rest)
  end.

(** [rlast - rfirst] for reverse iterators is the distance of the positions
    they hold, taken the other way round. *)
Definition rdistance (rfirst rlast : reverse_iterator T) : M W Z :=
  match rfirst, rlast with
  | RevIt f, RevIt l => distance l f
  end.

(** The loop over [it = first; it != last; ++it] that reads [*it] at
    every position, returning what it reads. *)
Fixpoint read_loop (it : iterator T) (count : nat) : M W (list T) :=
  match count with
  | O => ret []
  | S c =>
      let! x := deref it in
      let! xs := read_loop (next it) c in
      ret (x :: xs)
  end.

Definition traverse (first last : iterator T) : M W (list T) :=
  let! len := distance first last in read_loop first (Z.to_nat len).

(** The same loop over reverse iterators. *)
Fixpoint rread_loop (r : reverse_iterator T) (count : nat) : M W (list T) :=
  match count with
  | O => ret []
  | S c =>
      let! x := rderef r in
      let! xs := rread_loop (rnext r) c in
      ret (x :: xs)
  end.

Definition rtraverse (rfirst rlast : reverse_iterator T) : M W (list T) :=
  let! len := rdistance rfirst rlast in rread_loop rfirst (Z.to_nat len).

(** [*(p + i) = v] with the copy assignment operator of [T]: the slot must
    hold an object. *)
Definition assign_at (p : Z) (i : nat) (v : T) : M W unit :=
  fun w =>
    match heap_blocks w !! p with
    | Some b =>
        match blk_slots b !! i with
        | Some (Some old) =>
            match assign old v with
            | Val new =>
                Ret tt (with_blocks w
                  (<[p := mkBlock (blk_bytes b) (blk_align b)
                                  (<[i := Some new]> (blk_slots b))]>
                     (heap_blocks w)))
            | Exc e => Throw e w
            end
        | Some None => Undef ReadUnconstructed
        | None => Undef BadPointer
        end
    | None => Undef BadPointer
    end.

(** [std::fill(first, last, value)]: [for (; first != last; ++first)
    *first = value;].  [value] is a reference, read anew for every
    assignment; the range is one of writable positions. *)
Definition std_fill (first last : iterator T) (value : iterator T)
    : M W unit :=
  match first with
  | PtrIt base off =>
      let! len := distance first last in
      for_loop off (Z.to_nat len)
               (fun i => let! v := deref value in assign_at base i v)
  | SeqIt _ => undefined InvalidRange
  end.

(** [void fill(const value_type &val)] *)
Definition fill (this : nat) (val : iterator T) : M W unit :=
  let! b := begin_ this in
  let! e := end_ this in
  std_fill b e val.

(** The loop of [std::equal]: stops at the first pair that does not
    compare equal. *)
Fixpoint equal_loop (it1 it2 : iterator T) (count : nat) : M W bool :=
  match count with
  | O => ret true
  | S c =>
      let! x := deref it1 in
      let! y := deref it2 in
      if elem_eq x y then equal_loop (next it1) (next it2) c
      else ret false
  end.

(** [std::equal(first1, last1, first2, last2)] on random access iterators:
    ranges of different length are unequal without an element being
    compared. *)
Definition std_equal (first1 last1 first2 last2 : iterator T) : M W bool :=
  let! d1 := distance first1 last1 in
  let! d2 := distance first2 last2 in
  if d1 =? d2 then equal_loop first1 first2 (Z.to_nat d1)
  else ret false.

(** [friend bool operator==(const DynArray &lhs, const DynArray &rhs)] *)
Definition op_eq (lhs rhs : nat) : M W bool :=
  let! b1 := begin_ lhs in
  let! e1 := end_ lhs in
  let! b2 := begin_ rhs in
  let! e2 := end_ rhs in
  std_equal b1 e1 b2 e2.

(** [friend bool operator!=(const DynArray &lhs, const DynArray &rhs)] *)
Definition op_ne (lhs rhs : nat) : M W bool :=
  let! r := op_eq lhs rhs in ret (negb r).

End Members.

End DynArrayRest.

(** ** Specification predicates for the remaining members *)

Module DynArrayRestSpec.
Import DynArray DynArraySpec.

Section Relations.
Context {T : Type} `{Element T} `{Assignable T} `{EqualityComparable T}.

(** [ys] are the copies of [vs], made by the copy constructor from the
    [cc]-th constructor call on. *)
Definition copied_from (cc : nat) (vs ys : list T) : Prop :=
  length ys = length vs /\
  forall j x y, vs !! j = Some x -> ys !! j = Some y ->
                copy_construct (cc + j) x = Val y.

(** [ys] are made by [T(args...)] from the [cc]-th constructor call on. *)
Definition made_by (args : Args) (cc : nat) (ys : list T) : Prop :=
  forall j y, ys !! j = Some y -> construct args (cc + j) = Val y.

(** [ys] are the results of assigning [v] to each of [vs]. *)
Definition assigned_from (v : T) (vs ys : list T) : Prop :=
  length ys = length vs /\
  forall j x y, vs !! j = Some x -> ys !! j = Some y -> assign x v = Val y.

(** Element-wise equality of two sequences of the same length. *)
Definition all_equal (vs ws : list T) : Prop :=
  forall j x y, vs !! j = Some x -> ws !! j = Some y -> elem_eq x y = true.

End Relations.

Section Outcomes.
Context `{Platform} {T : Type} `{Element T} {alignment_v : Z}.

Local Abbreviation Self := (DynArray.t T alignment_v).
Local Abbreviation W := (World T Self).

(** What a constructor that returns has done to the store [w]: the new
    object owns a block that was not there before and that holds exactly
    [ys]; nothing else in the store has changed, [calls] constructors of
    the element type and no destructor have run. *)
Definition constructs (w : W) (out : outcome W Self) (ys : list T)
    (calls : nat) : Prop :=
  match out with
  | Ret o w' =>
      mem_ o <> 0 /\ n_ o = Z.of_nat (length ys) /\
      heap_blocks w !! mem_ o = None /\
      holds w' o ys /\
      heap_blocks w'
      = <[mem_ o := mkBlock (Z.of_nat (length ys) * sizeof)
                            (AlignedAllocator.new_form alignment_v)
                            (Some <$> ys)]> (heap_blocks w) /\
      heap_free w' = heap_free w - Z.of_nat (length ys) * sizeof /\
      objects w' = objects w /\
      ctor_calls w' = (ctor_calls w + calls)%nat /\
      dtor_calls w' = dtor_calls w
  | _ => False
  end.


End Outcomes.

End DynArrayRestSpec.

(** ** Concrete programs *)

Module Scenario.
Import DynArray.

(** A 64-bit platform whose default [new] alignment is 16. *)
#[export] Instance x86_64 : Platform :=
  {| size_type_bits := 64; STDCPP_DEFAULT_NEW_ALIGNMENT := 16 |}.

(** An instrumented element type of four bytes holding one integer.
    [Probe()] makes 0 and [Probe(v)] makes [v]; either throws
    [user_exception 1] when exactly [fuse] constructors of the type ran
    before it.  The copy constructor throws [user_exception 13] when asked
    to copy the value 13. *)
Definition probe (fuse : option nat) : Element Z := {|
  sizeof := 4;
  Args := option Z;
  no_args := None;
  construct := fun args count =>
    if decide (fuse = Some count) then Exc (user_exception 1)
    else Val (default 0 args);
  copy_construct := fun _ x =>
    if x =? 13 then Exc (user_exception 13) else Val x
|}.

(** The element type whose fourth constructor call throws. *)
Definition fourth_throws : Element Z := probe (Some 3%nat).

Definition Arr : Type := DynArray.t Z 16.

Definition a16 : AlignedAllocator.t Z 16 := AlignedAllocator.Build.

Definition a64 : AlignedAllocator.t Z 64 := AlignedAllocator.Build.

(** No blocks, no objects, 1024 bytes to hand out from address 16 on. *)
Definition fresh_world : World Z Arr := mkWorld ∅ 16 1024 0 0 ∅.

(** Array 0 is [{1, 2, 3}] at address 16 and array 1 is [{7}] at address
    32. *)
Definition two_arrays : World Z Arr :=
  mkWorld (<[16 := mkBlock 12 None [Some 1; Some 2; Some 3]]>
             (<[32 := mkBlock 4 None [Some 7]]> ∅))
          36 1008 4 0
          (<[0%nat := mk a16 16 3]> (<[1%nat := mk a16 32 1]> ∅)).

(** Array 0 is [{1}] at address 16 and array 1 is [{7, 13}] at address 32:
    the second element of array 1 cannot be copied. *)
Definition poisoned_source : World Z Arr :=
  mkWorld (<[16 := mkBlock 4 None [Some 1]]>
             (<[32 := mkBlock 8 None [Some 7; Some 13]]> ∅))
          40 1012 3 0
          (<[0%nat := mk a16 16 1]> (<[1%nat := mk a16 32 2]> ∅)).

(** Array 0 is [{1, 2, 3}] at address 16, and the memory system has 8
    bytes left. *)
Definition nearly_full : World Z Arr :=
  mkWorld (<[16 := mkBlock 12 None [Some 1; Some 2; Some 3]]> ∅)
          28 8 3 0
          (<[0%nat := mk a16 16 3]> ∅).

(** Array 0 is [{1, 2}] at address 16. *)
Definition one_array : World Z Arr :=
  mkWorld (<[16 := mkBlock 8 None [Some 1; Some 2]]> ∅)
          24 1016 2 0
          (<[0%nat := mk a16 16 2]> ∅).

(** Array 0 has been moved from; array 1 holds its former elements. *)
Definition after_move : World Z Arr :=
  mkWorld (<[16 := mkBlock 8 None [Some 1; Some 2]]> ∅)
          24 1016 2 0
          (<[0%nat := mk a16 0 0]> (<[1%nat := mk a16 16 2]> ∅)).

(** The store in which copy assignment of array 1 of [poisoned_source] to
    array 0 stops. *)
Definition after_failed_copy_assign : World Z Arr :=
  mkWorld (<[32 := mkBlock 8 None [Some 7; Some 13]]>
             (<[48 := mkBlock 8 None [None; None]]> ∅))
          56 1008 5 2
          (<[0%nat := mk a16 48 2]> (<[1%nat := mk a16 32 2]> ∅)).

(** The store in which [reset(1000)] on array 0 of [nearly_full] stops. *)
Definition after_failed_reset_allocation : World Z Arr :=
  mkWorld ∅ 28 20 3 3 (<[0%nat := mk a16 16 1000]> ∅).

(** The store in which [reset(3)] on array 0 of [one_array] stops when the
    fourth constructor call of the element type throws. *)
Definition after_failed_reset_construction : World Z Arr :=
  mkWorld (<[32 := mkBlock 12 None [Some 0; None; None]]> ∅)
          44 1012 4 2
          (<[0%nat := mk a16 32 3]> ∅).

(** The store in which the sized constructor for five elements stops when
    the fourth constructor call of the element type throws. *)
Definition after_failed_sized_ctor : World Z Arr :=
  mkWorld (<[16 := mkBlock 20 None [Some 9; Some 9; Some 9; None; None]]> ∅)
          36 1004 4 0 ∅.

End Scenario.

(** ** Concrete element operations for the remaining members *)

Module ScenarioRest.

(** Assignment of the instrumented element type: the target takes the
    value of the source and nothing is thrown. *)
#[export] Instance probe_assign : Assignable Z :=
  {| assign := fun _ v => Val v |}.

(** Equality of the instrumented element type: equality of the values. *)
#[export] Instance probe_eq : EqualityComparable Z :=
  {| elem_eq := Z.eqb |}.

(** The store after [allocate(3)] on the fresh store with an allocator of
    alignment 64. *)
Definition after_aligned_allocation : World Z Scenario.Arr :=
  mkWorld (<[64 := mkBlock 12 (Some 64) [None; None; None]]> ∅)
          76 1012 0 0 ∅.

End ScenarioRest.

(** ** Facts about the monad *)

Section MonadFacts.
Context {W0 : Type}.

Lemma bind_ret_eq {A B} (m : M W0 A) (k : A -> M W0 B) w a w' :
  m w = Ret a w' -> bind m k w = k a w'.
Proof. unfold bind. by intros ->. Qed.

Lemma bind_throw_eq {A B} (m : M W0 A) (k : A -> M W0 B) w e w' :
  m w = Throw e w' -> bind m k w = Throw e w'.
Proof. unfold bind. by intros ->. Qed.

Lemma bind_undef_eq {A B} (m : M W0 A) (k : A -> M W0 B) w u :
  m w = Undef u -> bind m k w = Undef u.
Proof. unfold bind. by intros ->. Qed.

Lemma bind3_ret_eq {B} (m1 m2 m3 : M W0 unit) (k : M W0 B) w w' :
  (m1 ;; m2 ;; m3) w = Ret tt w' -> (m1 ;; m2 ;; m3 ;; k) w = k w'.
Proof.
  unfold bind. destruct (m1 w) as [[] w1 | |]; [|done..].
  destruct (m2 w1) as [[] w2 | |]; [|done..]. by intros ->.
Qed.

End MonadFacts.

(** ** Facts about AlignedAllocator *)

Module AlignedAllocatorFacts.
Import AlignedAllocator.

Lemma pow2_pos a : is_pow2 a -> 0 < a.
Proof. intros (k & Hk & ->). apply Z.pow_pos_nonneg; lia. Qed.

Lemma pow2_le_divide a b : is_pow2 a -> is_pow2 b -> a <= b -> (a | b).
Proof.
  intros (j & Hj & ->) (k & Hk & ->) Hle.
  assert (j <= k) by (apply (Z.pow_le_mono_r_iff 2); lia).
  exists (2 ^ (k - j)). rewrite <- Z.pow_add_r by lia. f_equal. lia.
Qed.

Lemma align_up_ge x a : 0 < a -> x <= align_up x a.
Proof.
  intros Ha. unfold align_up.
  pose proof (Z.div_mod (x + a - 1) a ltac:(lia)) as Hdm.
  pose proof (Z.mod_pos_bound (x + a - 1) a Ha). lia.
Qed.

Lemma align_up_divide x a : (a | align_up x a).
Proof. unfold align_up. apply Z.divide_factor_r. Qed.

(** The product overflows [size_type] exactly when the count exceeds the
    quotient the code compares it with. *)
Lemma mul_overflow_iff (m n s : Z) : 0 < s -> (m < n * s <-> m / s < n).
Proof.
  intros Hs. split; intros Hlt.
  - apply Z.div_lt_upper_bound; lia.
  - pose proof (Z.div_mod m s ltac:(lia)).
    pose proof (Z.mod_pos_bound m s Hs). nia.
Qed.

Section Allocate.
Context `{PlatformOk} {T : Type} `{Element T} {Obj : Type} {alignment_v : Z}.

Local Abbreviation W := (World T Obj).

Lemma size_type_max_nonneg : 0 <= size_type_max.
Proof.
  unfold size_type_max.
  pose proof size_type_bits_pos.
  assert (0 < 2 ^ size_type_bits) by (apply Z.pow_pos_nonneg; lia). lia.
Qed.

Lemma wrap_small x : 0 <= x <= size_type_max -> wrap x = x.
Proof. unfold wrap, size_type_max. intros Hx. apply Z.mod_small. lia. Qed.

(** Both forms of [::operator new] meet the contract of [allocate]. *)
Lemma operator_new_contract (form : option Z) (n : Z) (w : W) :
  1 <= sizeof -> is_pow2 alignment_v -> wf_heap w ->
  0 <= n -> n * sizeof <= size_type_max ->
  (form = None /\ alignment_v <= STDCPP_DEFAULT_NEW_ALIGNMENT) \/
    form = Some alignment_v ->
  allocate_contract alignment_v n w (operator_new (n * sizeof) form w).
Proof.
  intros Hs Hpow [Hnext Hblocks] Hn Hmax Hform.
  unfold operator_new. destruct (heap_free w <? n * sizeof) eqn:Hfree.
  - simpl. apply Z.ltb_lt in Hfree. auto.
  - apply Z.ltb_ge in Hfree.
    set (r := requested_alignment form).
    assert (Hr : 0 < r /\ (alignment_v | r)).
    { destruct Hform as [[-> Hle] | ->]; simpl in r; subst r.
      - split; [apply pow2_pos, default_alignment_pow2|].
        apply pow2_le_divide; auto using default_alignment_pow2.
      - split; [by apply pow2_pos | apply Z.divide_refl]. }
    destruct Hr as [Hr Hdiv].
    pose proof (align_up_ge (heap_next w) r Hr) as Hge.
    simpl. repeat split; try lia.
    + etrans; [exact Hdiv | apply align_up_divide].
    + destruct (heap_blocks w !! align_up (heap_next w) r) eqn:Hl; [|done].
      apply Hblocks in Hl. lia.
    + eexists. split; [reflexivity|]. simpl.
      rewrite Z.div_mul by lia. done.
Qed.

Lemma allocate_too_large (self : t T alignment_v) (n : Z) (w : W) :
  max_size T < n -> allocate self n w = Throw bad_alloc w.
Proof.
  intros Hn. unfold allocate.
  destruct (n >? max_size T) eqn:Hgt; [done|].
  rewrite Z.gtb_ltb in Hgt. apply Z.ltb_ge in Hgt. lia.
Qed.

Lemma allocate_in_range (self : t T alignment_v) (n : Z) (w : W) :
  1 <= sizeof -> 0 <= n -> n <= max_size T ->
  n * sizeof <= size_type_max /\
  wrap (n * sizeof) = n * sizeof /\
  allocate self n w = operator_new (n * sizeof) (new_form alignment_v) w.
Proof.
  intros Hs Hn Hle.
  assert (Hmul : n * sizeof <= size_type_max).
  { destruct (Z.le_gt_cases (n * sizeof) size_type_max) as [|Hgt]; [done|].
    apply mul_overflow_iff in Hgt; [|lia]. unfold max_size in Hle. lia. }
  split; [done|].
  assert (Hw : wrap (n * sizeof) = n * sizeof) by (apply wrap_small; nia).
  split; [done|].
  unfold allocate, new_form. rewrite Hw.
  destruct (n >? max_size T) eqn:Hgt.
  - rewrite Z.gtb_ltb in Hgt. apply Z.ltb_lt in Hgt. lia.
  - by destruct (alignment_v <=? STDCPP_DEFAULT_NEW_ALIGNMENT).
Qed.

Lemma allocate_meets_contract (self : t T alignment_v) (n : Z) (w : W) :
  1 <= sizeof -> is_pow2 alignment_v -> wf_heap w -> 0 <= n ->
  allocate_contract alignment_v n w (allocate self n w).
Proof.
  intros Hs Hpow Hwf Hn.
  destruct (Z.lt_ge_cases (max_size T) n) as [Hbig | Hsmall].
  - rewrite allocate_too_large by done. simpl.
    repeat split. left. apply mul_overflow_iff; [lia | exact Hbig].
  - destruct (allocate_in_range self n w Hs Hn Hsmall) as (Hmul & _ & ->).
    apply operator_new_contract; try done.
    unfold new_form.
    destruct (alignment_v <=? STDCPP_DEFAULT_NEW_ALIGNMENT) eqn:Hle; [|auto].
    apply Z.leb_le in Hle. auto.
Qed.

(** The address the memory system hands out next is neither null nor that
    of a live block. *)
Lemma fresh_address (w : W) :
  wf_heap w ->
  let p := align_up (heap_next w)
                    (requested_alignment (new_form alignment_v)) in
  p <> 0 /\ heap_blocks w !! p = None.
Proof.
  intros [Hnext Hblocks] p.
  assert (Hr : 0 < requested_alignment (new_form alignment_v)).
  { pose proof (pow2_pos _ default_alignment_pow2). unfold new_form.
    destruct (alignment_v <=? STDCPP_DEFAULT_NEW_ALIGNMENT) eqn:Hle; simpl;
      [done|]. apply Z.leb_gt in Hle. lia. }
  pose proof (align_up_ge (heap_next w) _ Hr) as Hge. fold p in Hge.
  split; [lia|].
  destruct (heap_blocks w !! p) eqn:Hl; [|done].
  apply Hblocks in Hl. lia.
Qed.

(** A request that neither overflows nor exceeds what the memory system
    has left yields a block of [n] raw slots. *)
Lemma allocate_ok (self : t T alignment_v) (n : Z) bs nx fr cc dc
    (os : gmap nat Obj) :
  1 <= sizeof -> 0 <= n -> n <= max_size T -> n * sizeof <= fr ->
  let form := new_form alignment_v in
  let p := align_up nx (requested_alignment form) in
  allocate self n (mkWorld bs nx fr cc dc os)
  = Ret p (mkWorld
             (<[p := mkBlock (n * sizeof) form (replicate (Z.to_nat n) None)]> bs)
             (p + Z.max (n * sizeof) 1) (fr - n * sizeof) cc dc os).
Proof.
  intros Hs Hn Hmax Hfree form p.
  destruct (allocate_in_range self n (mkWorld bs nx fr cc dc os) Hs Hn Hmax)
    as (_ & _ & ->).
  unfold operator_new. simpl.
  destruct (fr <? n * sizeof) eqn:Hlt; [apply Z.ltb_lt in Hlt; lia|].
  unfold with_heap. simpl. by rewrite Z.div_mul by lia.
Qed.

End Allocate.

Section Equality.
Context {value_t value_type2 : Type} {alignment_v alignment2 : Z}.

(** C8. Allocator equality.  Two allocator instances, of whatever element
    types, compare equal exactly when their alignments are the same number
    and unequal exactly when they differ; [operator!=] is the negation of
    [operator==]. *)
Theorem allocator_equality (x : t value_t alignment_v)
    (y : t value_type2 alignment2) :
  (op_eq x y = true <-> alignment x = alignment y) /\
  (op_eq x y = false <-> alignment x <> alignment y) /\
  op_ne x y = negb (op_eq x y).
Proof.
  unfold op_eq, op_ne, alignment. split; [apply Z.eqb_eq|].
  split; [apply Z.eqb_neq | done].
Qed.

End Equality.

Section Overflow.
Context `{PlatformOk} {T : Type} `{Element T} {Obj : Type} {alignment_v : Z}.

Local Abbreviation W := (World T Obj).

(** C9. Allocate overflow detection.  For a count [n] of the size type,
    [n * sizeof(T)] exceeds the largest value of the size type exactly when
    [n] exceeds [max / sizeof(T)]; in that case [allocate(n)] throws
    [std::bad_alloc] and leaves the store as it was.  Otherwise the byte
    count is the exact product, unchanged by the wrap-around of the
    multiplication, and it is what [::operator new] receives.  Whichever of
    the two forms of [::operator new] serves the request, the caller
    observes the same contract: [std::bad_alloc] with the store untouched,
    or a fresh non-null address divisible by the alignment with [n] raw
    slots. *)
Theorem allocate_overflow_detection (self : t T alignment_v) (n : Z) (w : W) :
  1 <= sizeof -> is_pow2 alignment_v -> wf_heap w ->
  0 <= n <= size_type_max ->
  (size_type_max < n * sizeof <-> size_type_max / sizeof < n) /\
  (size_type_max < n * sizeof -> allocate self n w = Throw bad_alloc w) /\
  (n * sizeof <= size_type_max ->
     wrap (n * sizeof) = n * sizeof /\
     allocate self n w = operator_new (n * sizeof) (new_form alignment_v) w /\
     (alignment_v <= STDCPP_DEFAULT_NEW_ALIGNMENT ->
        allocate_contract alignment_v n w (operator_new (n * sizeof) None w)) /\
     allocate_contract alignment_v n w
       (operator_new (n * sizeof) (Some alignment_v) w)) /\
  allocate_contract alignment_v n w (allocate self n w).
Proof.
  intros Hs Hpow Hwf [Hn Hnmax].
  assert (Hiff : size_type_max < n * sizeof <-> size_type_max / sizeof < n)
    by (apply mul_overflow_iff; lia).
  split; [exact Hiff|]. split; [|split].
  - intros Hbig. apply allocate_too_large. by apply Hiff.
  - intros Hfits.
    assert (Hle : n <= max_size T).
    { unfold max_size.
      destruct (Z.le_gt_cases n (size_type_max / sizeof)); [done|].
      assert (size_type_max < n * sizeof) by (apply Hiff; lia). lia. }
    destruct (allocate_in_range self n w Hs Hn Hle) as (_ & Hwrap & Halloc).
    split; [done|]. split; [done|]. split.
    + intros Hdefault. apply operator_new_contract; auto.
    + apply operator_new_contract; auto.
  - by apply allocate_meets_contract.
Qed.

End Overflow.

End AlignedAllocatorFacts.

(** ** Facts about DynArray *)

Module DynArrayFacts.
Import DynArray DynArraySpec.


Section Loops.
Context `{Platform} {T : Type} `{Element T} {alignment_v : Z}.

Local Abbreviation Self := (DynArray.t T alignment_v).
Local Abbreviation W := (World T Self).

(** Destroying [count] live elements that follow [pre] leaves raw slots in
    their place and runs [count] destructors. *)
Lemma destroy_loop (p : Z) (bytes : Z) (al : option Z) (live : list T) :
  forall (pre post : list (option T)) bs nx fr cc dc (os : gmap nat Self),
    bs !! p = Some (mkBlock bytes al (pre ++ (Some <$> live) ++ post)) ->
    for_loop (length pre) (length live) (fun i => destroy_at p i)
             (mkWorld bs nx fr cc dc os)
    = Ret tt (mkWorld
                (<[p := mkBlock bytes al
                          (pre ++ replicate (length live) None ++ post)]> bs)
                nx fr cc (dc + length live)%nat os).
Proof.
  induction live as [|v live IH]; intros pre post bs nx fr cc dc os Hp.
  - simpl. unfold ret. rewrite Nat.add_0_r. by rewrite insert_id.
  - simpl. unfold bind at 1. unfold destroy_at at 1. simpl. rewrite Hp. simpl.
    rewrite lookup_app_r by lia. rewrite Nat.sub_diag. simpl.
    unfold count_dtor, with_blocks. simpl.
    change (list_fmap T (option T) Some live) with (Some <$> live).
    specialize (IH (pre ++ [None]) post
                   (<[p := mkBlock bytes al
                             ((pre ++ [None]) ++ (Some <$> live) ++ post)]> bs)
                   nx fr cc (S dc) os).
    rewrite length_app in IH. simpl in IH.
    replace (length pre + 1)%nat with (S (length pre)) in IH by lia.
    assert (Hins : <[length pre := None]> (pre ++ Some v :: (Some <$> live) ++ post)
                   = (pre ++ [None]) ++ (Some <$> live) ++ post).
    { rewrite insert_app_r_alt by lia. rewrite Nat.sub_diag. simpl.
      by rewrite <- app_assoc. }
    rewrite Hins. rewrite IH by apply lookup_insert_eq.
    rewrite insert_insert_eq. rewrite <- app_assoc. simpl.
    do 2 f_equal. lia.
Qed.

Lemma readable_next (w : W) (first : iterator T) (v : T) (vs : list T) :
  readable w first (v :: vs) ->
  deref first w = Ret v w /\ readable w (next first) vs.
Proof.
  destruct first as [base off | rest]; simpl.
  - intros (b & Hb & Hvs). split.
    + unfold load. rewrite Hb.
      specialize (Hvs 0%nat v eq_refl). rewrite Nat.add_0_r in Hvs.
      by rewrite Hvs.
    + exists b. split; [done|]. intros j x Hj.
      specialize (Hvs (S j) x Hj). by rewrite Nat.add_succ_r in Hvs.
  - intros (rest' & ->). simpl. split; [done|]. by exists rest'.
Qed.

Lemma readable_frame (w w' : W) (first : iterator T) (vs : list T) (p : Z) :
  ~ points_into first p ->
  (forall q, q <> p -> (heap_blocks w' !! q) = (heap_blocks w !! q)) ->
  readable w first vs -> readable w' first vs.
Proof.
  destruct first as [base off | rest]; simpl; [|done].
  intros Hne Hsame (b & Hb & Hvs). exists b. by rewrite Hsame.
Qed.

Lemma points_into_next (first : iterator T) (p : Z) :
  points_into (next first) p <-> points_into first p.
Proof. by destruct first. Qed.

(** [std::uninitialized_copy] when the copy constructor of element [k]
    throws: the [k] copies made so far (and the [done_] elements in front of
    them) are destroyed again, the block is raw memory once more, and the
    exception of the copy constructor is the one that leaves the loop. *)
Lemma uninitialized_copy_loop_throws (p bytes : Z) (al : option Z)
    (e : exn) (x : T) :
  forall (vs : list T) (k : nat) (first : iterator T) (done_ : list T)
         (m : nat) bs nx fr cc dc (os : gmap nat Self),
    bs !! p = Some (mkBlock bytes al ((Some <$> done_) ++ replicate m None)) ->
    (length vs <= m)%nat ->
    readable (mkWorld bs nx fr cc dc os) first vs ->
    ~ points_into first p ->
    vs !! k = Some x ->
    (forall j y, (j < k)%nat -> vs !! j = Some y ->
                 exists y', copy_construct (cc + j) y = Val y') ->
    copy_construct (cc + k) x = Exc e ->
    uninitialized_copy_loop first (length vs) p (length done_)
                            (mkWorld bs nx fr cc dc os)
    = Throw e (mkWorld
                 (<[p := mkBlock bytes al
                           (replicate (length done_ + m) None)]> bs)
                 nx fr (cc + S k) (dc + length done_ + k) os).
Proof.
  induction vs as [|v vs IH];
    intros k first done_ m bs nx fr cc dc os Hp Hm Hread Hout Hk Hgood Hbad;
    [done|].
  apply readable_next in Hread as [Hderef Hread].
  simpl. rewrite (bind_ret_eq _ _ _ _ _ Hderef).
  destruct k as [|k].
  - simpl in Hk. injection Hk as ->. rewrite Nat.add_0_r in Hbad.
    unfold bind, try_catch, construct_at, run_ctor. simpl.
    unfold bind at 1. simpl. rewrite Hbad.
    unfold destroy_range, count_ctor. simpl.
    pose proof (destroy_loop p bytes al done_ [] (replicate m None)
                  bs nx fr (S cc) dc os Hp) as Hdestroy.
    simpl in Hdestroy. rewrite Hdestroy. unfold throw.
    rewrite replicate_add. f_equal. f_equal; lia.
  - destruct (Hgood 0%nat v) as [y Hy]; [lia | done |].
    rewrite Nat.add_0_r in Hy.
    destruct m as [|m]; [simpl in Hm; lia|].
    set (bs' := <[p := mkBlock bytes al
                        ((Some <$> (done_ ++ [y])) ++ replicate m None)]> bs).
    assert (Hstep :
      try_catch (construct_at p (length done_) (fun k => copy_construct k v))
                (fun e => destroy_range p (length done_) ;; throw e)
                (mkWorld bs nx fr cc dc os)
      = Ret tt (mkWorld bs' nx fr (S cc) dc os)).
    { unfold try_catch, construct_at, run_ctor. unfold bind at 1. simpl.
      rewrite Hy. unfold placement_new, count_ctor. simpl. rewrite Hp. simpl.
      rewrite decide_True
        by (rewrite length_app, length_fmap; simpl; lia).
      unfold with_blocks. simpl. f_equal. f_equal. subst bs'. do 2 f_equal.
      rewrite insert_app_r_alt by (rewrite length_fmap; lia).
      rewrite length_fmap, Nat.sub_diag. simpl.
      rewrite fmap_app. simpl. by rewrite <- app_assoc. }
    rewrite (bind_ret_eq _ _ _ _ _ Hstep).
    specialize (IH k (next first) (done_ ++ [y]) m bs' nx fr (S cc) dc os).
    rewrite length_app in IH. simpl in IH.
    replace (length done_ + 1)%nat with (S (length done_)) in IH by lia.
    rewrite IH.
    + subst bs'. rewrite insert_insert_eq. f_equal. f_equal; try lia.
      do 3 f_equal. lia.
    + subst bs'. apply lookup_insert_eq.
    + simpl in Hm. lia.
    + eapply (readable_frame _ _ _ _ p);
        [by rewrite points_into_next | | exact Hread].
      intros q Hq. subst bs'. simpl. by apply lookup_insert_ne.
    + by rewrite points_into_next.
    + done.
    + intros j y0 Hj Hy0. destruct (Hgood (S j) y0) as [y' Hy']; [lia|done|].
      exists y'. rewrite <- Hy'. f_equal. lia.
    + rewrite <- Hbad. f_equal. lia.
Qed.

End Loops.

Section Moves.
Context `{Platform} {T : Type} `{Element T} {alignment_v : Z}.

Local Abbreviation Self := (DynArray.t T alignment_v).
Local Abbreviation W := (World T Self).

Lemma get_eq (this : nat) (o : Self) (w : W) :
  objects w !! this = Some o -> get this w = Ret o w.
Proof. unfold get. by intros ->. Qed.

Lemma same_alignment_refl (al : option Z) :
  @same_alignment al al = true.
Proof. destruct al; simpl; [apply Z.eqb_refl | done]. Qed.

(** [deallocate()] on the empty/uninitialized state does nothing. *)
Lemma deallocate_null (this : nat) (o : Self) (w : W) :
  objects w !! this = Some o -> mem_ o = 0 ->
  deallocate this w = Ret tt w.
Proof.
  intros Ho Hm. unfold deallocate.
  rewrite (bind_ret_eq _ _ _ _ _ (get_eq _ _ _ Ho)). by rewrite Hm.
Qed.

(** [deallocate()] on an object that owns a block destroys every element
    and releases the block; the members keep their values. *)
Lemma deallocate_owned (this : nat) (o : Self) (vs : list T) bs nx fr cc dc os :
  os !! this = Some o -> mem_ o <> 0 ->
  holds (mkWorld bs nx fr cc dc os) o vs ->
  deallocate this (mkWorld bs nx fr cc dc os)
  = Ret tt (mkWorld (delete (mem_ o) bs) nx (fr + wrap (n_ o * sizeof)) cc
                    (dc + length vs)%nat os).
Proof.
  intros Ho Hm [[Hz _] | (_ & Hn & b & Hb & Hbytes & Hal & Hslots)]; [done|].
  simpl in Hb. unfold deallocate.
  rewrite (bind_ret_eq _ _ _ _ _
             (get_eq this o (mkWorld bs nx fr cc dc os) Ho)).
  apply Z.eqb_neq in Hm as Hm'. rewrite Hm'.
  rewrite Hn, Nat2Z.id.
  destruct b as [bytes al slots]. simpl in *. subst slots.
  erewrite bind_ret_eq; cycle 1.
  { apply (destroy_loop (mem_ o) bytes al vs [] []).
    by rewrite app_nil_r. }
  unfold AlignedAllocator.deallocate, AlignedAllocator.new_form in *.
  rewrite <- Hn.
  assert (Hdel : forall form, al = form ->
    operator_delete (mem_ o) (wrap (n_ o * sizeof)) form
      (mkWorld (<[mem_ o := mkBlock bytes al
                   ([] ++ replicate (length vs) None ++ [])]> bs)
               nx fr cc (dc + length vs)%nat os)
    = Ret tt (mkWorld (delete (mem_ o) bs) nx (fr + wrap (n_ o * sizeof)) cc
                      (dc + length vs)%nat os)).
  { intros form <-. unfold operator_delete. rewrite Hm'. simpl.
    rewrite lookup_insert_eq. simpl. rewrite Hbytes, Z.eqb_refl.
    rewrite same_alignment_refl. simpl. unfold with_heap. simpl.
    by rewrite delete_insert_eq. }
  destruct (alignment_v <=? STDCPP_DEFAULT_NEW_ALIGNMENT); by apply Hdel.
Qed.

Lemma put_eq (this : nat) (o : Self) (w : W) :
  put this o w = Ret tt (with_objects w (<[this := o]> (objects w))).
Proof. done. Qed.

Lemma set_alloc__eq (this : nat) (o : Self) a (w : W) :
  objects w !! this = Some o ->
  set_alloc_ this a w
  = Ret tt (with_objects w (<[this := mk a (mem_ o) (n_ o)]> (objects w))).
Proof. intros Ho. unfold set_alloc_. by rewrite (bind_ret_eq _ _ _ _ _ (get_eq _ _ _ Ho)). Qed.

Lemma set_mem__eq (this : nat) (o : Self) p (w : W) :
  objects w !! this = Some o ->
  set_mem_ this p w
  = Ret tt (with_objects w (<[this := mk (alloc_ o) p (n_ o)]> (objects w))).
Proof. intros Ho. unfold set_mem_. by rewrite (bind_ret_eq _ _ _ _ _ (get_eq _ _ _ Ho)). Qed.

Lemma set_n__eq (this : nat) (o : Self) n (w : W) :
  objects w !! this = Some o ->
  set_n_ this n w
  = Ret tt (with_objects w (<[this := mk (alloc_ o) (mem_ o) n]> (objects w))).
Proof. intros Ho. unfold set_n_. by rewrite (bind_ret_eq _ _ _ _ _ (get_eq _ _ _ Ho)). Qed.

(** The members of [that] are handed to a new object and [that] is left
    empty; the store of elements is not touched. *)
Lemma ctor_move_eq (that : nat) (o : Self) (w : W) :
  objects w !! that = Some o ->
  ctor_move that w
  = Ret (mk (alloc_ o) (mem_ o) (n_ o))
        (with_objects w (<[that := mk (alloc_ o) 0 0]> (objects w))).
Proof.
  intros Ho. unfold ctor_move.
  rewrite (bind_ret_eq _ _ _ _ _ (get_eq _ _ _ Ho)).
  rewrite (bind_ret_eq _ _ _ (mem_ o) w)
    by (by rewrite (bind_ret_eq _ _ _ _ _ (get_eq _ _ _ Ho))).
  rewrite (bind_ret_eq _ _ _ _ _ (set_mem__eq _ _ 0 _ Ho)).
  destruct w as [bs nx fr cc dc os]. simpl in *.
  unfold set_n_. unfold bind, get, put, ret, with_objects. simpl.
  rewrite lookup_insert_eq. simpl. rewrite lookup_insert_eq. simpl.
  by rewrite insert_insert_eq.
Qed.

(** The hand-over of [operator=(DynArray &&)] after its [deallocate()], for
    two distinct objects. *)
Lemma move_assign_handover (this that : nat) (o_this o_that : Self) (w : W) :
  this <> that ->
  objects w !! this = Some o_this -> objects w !! that = Some o_that ->
  ((let! o := get that in set_alloc_ this (alloc_ o)) ;;
   (let! o := get that in set_mem_ this (mem_ o)) ;;
   set_mem_ that 0 ;;
   (let! o := get that in set_n_ this (n_ o)) ;;
   set_n_ that 0) w
  = Ret tt (with_objects w
      (<[that := mk (alloc_ o_that) 0 0]>
         (<[this := mk (alloc_ o_that) (mem_ o_that) (n_ o_that)]>
            (objects w)))).
Proof.
  intros Hne Hthis Hthat.
  destruct w as [bs nx fr cc dc os]. simpl in *.
  unfold set_alloc_, set_mem_, set_n_.
  unfold bind, get, put, ret, with_objects.
  simpl.
  repeat (rewrite ?Hthat, ?Hthis, ?lookup_insert_eq; simpl;
          try rewrite lookup_insert_ne by done).
  do 2 f_equal. apply map_eq. intros i.
  destruct (decide (i = that)) as [->|]; [by rewrite !lookup_insert_eq|].
  rewrite !(lookup_insert_ne _ that) by done.
  destruct (decide (i = this)) as [->|]; [by rewrite !lookup_insert_eq|].
  by rewrite !lookup_insert_ne by done.
Qed.

(** In the state a move leaves behind, [size()] is zero and [front()]
    raises the failure of the empty state. *)
Lemma moved_from_reads (this : nat) (w : W) :
  moved_from w this ->
  size this w = Ret 0 w /\
  front this w = Throw (domain_error "uninitialized DynArray") w.
Proof.
  intros (o & Ho & Hm & Hn). unfold size, front, empty.
  unfold bind, ret, throw. rewrite (get_eq _ _ _ Ho), Hn. done.
Qed.

(** A block other than the released one is still there. *)
Lemma holds_frame (w w' : W) (o : Self) (vs : list T) :
  (mem_ o <> 0 ->
   (heap_blocks w' !! mem_ o) = (heap_blocks w !! mem_ o)) ->
  holds w o vs -> holds w' o vs.
Proof.
  intros Hsame [Hempty | (Hm & Hn & b & Hb & Hrest)]; [by left|].
  right. repeat split; try done. exists b. by rewrite Hsame.
Qed.

(** C6. Move semantics.  Moving array [a] into a new object [c] (move
    construction) or into an existing array [b] (move assignment) hands over
    the pointer and the count: no constructor of the element type runs and
    the source's block is not touched, the source is left in the
    empty/uninitialized state (null pointer, size zero, [size()] is 0 and
    [front()] raises the empty-state failure), and the destination holds
    exactly the elements [vs] that [a] held, in order.  Move assignment
    first runs [deallocate()] on the destination, which destroys all of its
    elements and releases its block while the source is still intact. *)
Theorem move_semantics (w : W) (a b c : nat) (oa ob : Self)
    (vs ws : list T) :
  a <> b -> a <> c ->
  objects w !! a = Some oa -> objects w !! b = Some ob ->
  holds w oa vs -> holds w ob ws ->
  (mem_ ob = 0 \/ mem_ ob <> mem_ oa) ->
  (exists w1,
     construct_object c (ctor_move a) w = Ret tt w1 /\
     objects w1 !! c = Some (mk (alloc_ oa) (mem_ oa) (n_ oa)) /\
     holds w1 (mk (alloc_ oa) (mem_ oa) (n_ oa)) vs /\
     moved_from w1 a /\
     size a w1 = Ret 0 w1 /\
     front a w1 = Throw (domain_error "uninitialized DynArray") w1 /\
     heap_blocks w1 = heap_blocks w /\
     ctor_calls w1 = ctor_calls w /\ dtor_calls w1 = dtor_calls w) /\
  (exists wd w2,
     deallocate b w = Ret tt wd /\
     objects wd = objects w /\
     heap_blocks wd = (if decide (mem_ ob = 0) then heap_blocks w
                       else delete (mem_ ob) (heap_blocks w)) /\
     dtor_calls wd = (dtor_calls w + length ws)%nat /\
     move_assign b a w = Ret tt w2 /\
     objects w2 !! b = Some (mk (alloc_ oa) (mem_ oa) (n_ oa)) /\
     holds w2 (mk (alloc_ oa) (mem_ oa) (n_ oa)) vs /\
     moved_from w2 a /\
     size a w2 = Ret 0 w2 /\
     front a w2 = Throw (domain_error "uninitialized DynArray") w2 /\
     heap_blocks w2 = heap_blocks wd /\
     ctor_calls w2 = ctor_calls w /\ dtor_calls w2 = dtor_calls wd).
Proof.
  intros Hab Hac Ha Hb Hvs Hws Hsep. split.
  - eexists. unfold construct_object.
    rewrite (bind_ret_eq _ _ _ _ _ (ctor_move_eq _ _ _ Ha)), put_eq.
    split; [reflexivity|].
    assert (Hmoved : moved_from
      (with_objects
         (with_objects w (<[a := mk (alloc_ oa) 0 0]> (objects w)))
         (<[c := mk (alloc_ oa) (mem_ oa) (n_ oa)]>
            (objects (with_objects w (<[a := mk (alloc_ oa) 0 0]> (objects w))))))
      a).
    { eexists. simpl. rewrite lookup_insert_ne by done.
      rewrite lookup_insert_eq. done. }
    destruct (moved_from_reads _ _ Hmoved) as [Hsize Hfront].
    repeat split; try done.
    all: try (simpl; by rewrite lookup_insert_eq).
    all: try (eapply holds_frame; [|exact Hvs]; done).
  - assert (Hd : exists wd,
        deallocate b w = Ret tt wd /\ objects wd = objects w /\
        heap_blocks wd = (if decide (mem_ ob = 0) then heap_blocks w
                          else delete (mem_ ob) (heap_blocks w)) /\
        dtor_calls wd = (dtor_calls w + length ws)%nat /\
        ctor_calls wd = ctor_calls w).
    { destruct (decide (mem_ ob = 0)) as [Hz | Hnz].
      - exists w. rewrite (deallocate_null _ _ _ Hb Hz).
        destruct Hws as [(_ & _ & ->) | [Hnz _]]; [|done].
        simpl. repeat split; lia.
      - destruct w as [bs nx fr cc dc os]. simpl in *.
        eexists. rewrite (deallocate_owned _ _ _ _ _ _ _ _ _ Hb Hnz Hws).
        simpl. done. }
    destruct Hd as (wd & Hdealloc & Hobjs & Hblocks & Hdtor & Hctor).
    exists wd. eexists. unfold move_assign.
    rewrite (bind_ret_eq _ _ _ _ _ Hdealloc).
    rewrite (move_assign_handover b a ob oa wd) by (by rewrite ?Hobjs).
    assert (Hmoved : moved_from
      (with_objects wd
         (<[a := mk (alloc_ oa) 0 0]>
            (<[b := mk (alloc_ oa) (mem_ oa) (n_ oa)]> (objects wd)))) a).
    { eexists. simpl. rewrite lookup_insert_eq. done. }
    destruct (moved_from_reads _ _ Hmoved) as [Hsize Hfront].
    repeat split; try done; try lia.
    all: try (simpl; rewrite lookup_insert_ne by done;
              by rewrite lookup_insert_eq).
    all: try (eapply holds_frame; [|exact Hvs]; simpl; intros Hnz;
              rewrite Hblocks; destruct (decide (mem_ ob = 0)); [done|];
              apply lookup_delete_ne; destruct Hsep; congruence).
Qed.

End Moves.

Section RangeConstruction.
Context `{PlatformOk} {T : Type} `{Element T} {alignment_v : Z}.

Local Abbreviation A := (AlignedAllocator.t T alignment_v).
Local Abbreviation Self := (DynArray.t T alignment_v).
Local Abbreviation W := (World T Self).

Lemma distance_spans (first last : iterator T) (vs : list T) (w : W) :
  spans first last vs ->
  distance first last w = Ret (Z.of_nat (length vs)) w.
Proof.
  destruct first as [b1 o1 | l1], last as [b2 o2 | l2]; simpl; try done.
  - intros [-> ->]. rewrite Z.eqb_refl. simpl.
    destruct (o1 <=? o1 + length vs)%nat eqn:Hle;
      [|apply Nat.leb_gt in Hle; lia].
    unfold ret. f_equal. lia.
  - intros ->. rewrite length_app.
    destruct (length l2 <=? length vs + length l2)%nat eqn:Hle;
      [|apply Nat.leb_gt in Hle; lia].
    unfold ret. f_equal. lia.
Qed.

Lemma readable_not_fresh (w : W) (first : iterator T) (vs : list T) (p : Z) :
  readable w first vs -> heap_blocks w !! p = None -> ~ points_into first p.
Proof.
  destruct first as [base off | rest]; simpl; [|tauto].
  intros (b & Hb & _) Hp ->. congruence.
Qed.

(** C7. Range-construction exception safety.  When the range
    [[first, last)] delivers the values [vs] and the copy constructor of
    element [k] is the first to throw, constructing an array from the range
    throws that same exception to the caller; the [k] elements copied before
    it have been destroyed (exactly [k] destructor calls, none on a raw
    slot, which would have been undefined behaviour), the block has been
    given back to the allocator, and the store of blocks, the free memory
    and the set of objects are what they were before the call. *)
Theorem range_construction_exception_safety (w : W)
    (first last : iterator T) (a : A) (vs : list T) (k : nat) (x : T)
    (e : exn) :
  1 <= sizeof -> wf_heap w ->
  spans first last vs -> readable w first vs ->
  Z.of_nat (length vs) <= AlignedAllocator.max_size T ->
  Z.of_nat (length vs) * sizeof <= heap_free w ->
  vs !! k = Some x ->
  (forall j y, (j < k)%nat -> vs !! j = Some y ->
               exists y', copy_construct (ctor_calls w + j) y = Val y') ->
  copy_construct (ctor_calls w + k) x = Exc e ->
  exists w',
    ctor_range first last a w = Throw e w' /\
    heap_blocks w' = heap_blocks w /\
    heap_free w' = heap_free w /\
    objects w' = objects w /\
    ctor_calls w' = (ctor_calls w + S k)%nat /\
    dtor_calls w' = (dtor_calls w + k)%nat.
Proof.
  intros Hs Hwf Hspan Hread Hmax Hfree Hk Hgood Hbad.
  destruct (AlignedAllocatorFacts.fresh_address (alignment_v := alignment_v)
              w Hwf) as [Hnz Hfresh].
  destruct w as [bs nx fr cc dc os]. simpl in *.
  set (n := Z.of_nat (length vs)) in *.
  set (form := AlignedAllocator.new_form alignment_v) in *.
  set (p := align_up nx (requested_alignment form)) in *.
  set (b0 := mkBlock (T := T) (n * sizeof) form
                     (replicate (Z.to_nat n) None)).
  set (w1 := mkWorld (<[p := b0]> bs) (p + Z.max (n * sizeof) 1)
                     (fr - n * sizeof) cc dc os).
  assert (Hn : 0 <= n) by (subst n; lia).
  assert (Halloc : AlignedAllocator.allocate a n (mkWorld bs nx fr cc dc os)
                   = Ret p w1)
    by (by apply AlignedAllocatorFacts.allocate_ok).
  assert (Hcopy : uninitialized_copy first last p w1
                  = Throw e (mkWorld (<[p := b0]> bs)
                               (p + Z.max (n * sizeof) 1) (fr - n * sizeof)
                               (cc + S k) (dc + k) os)).
  { unfold uninitialized_copy.
    rewrite (bind_ret_eq _ _ _ _ _ (distance_spans _ _ _ w1 Hspan)).
    fold n. subst w1 n. rewrite Nat2Z.id.
    pose proof (uninitialized_copy_loop_throws p (Z.of_nat (length vs) * sizeof)
                  form e x vs k first [] (length vs) (<[p := b0]> bs)
                  (p + Z.max (Z.of_nat (length vs) * sizeof) 1)
                  (fr - Z.of_nat (length vs) * sizeof) cc dc os) as Hloop.
    simpl in Hloop. rewrite Hloop; try done.
    - rewrite insert_insert_eq. subst b0. rewrite Nat2Z.id.
      f_equal. f_equal. lia.
    - subst b0. rewrite Nat2Z.id. apply lookup_insert_eq.
    - eapply (readable_frame _ _ _ _ p); [| |exact Hread].
      + by eapply readable_not_fresh.
      + intros q Hq. simpl. by apply lookup_insert_ne.
    - by eapply readable_not_fresh. }
  eexists. unfold ctor_range.
  rewrite (bind_ret_eq _ _ _ _ _ (distance_spans _ _ _ _ Hspan)). fold n.
  rewrite (bind_ret_eq _ _ _ _ _ Halloc).
  unfold bind at 1. unfold try_catch. rewrite Hcopy.
  unfold bind, throw, AlignedAllocator.deallocate.
  rewrite AlignedAllocatorFacts.wrap_small
    by (split; [nia | by apply (AlignedAllocatorFacts.allocate_in_range a n w1)]).
  assert (Hdel :
    operator_delete p (n * sizeof) form
      (mkWorld (<[p := b0]> bs) (p + Z.max (n * sizeof) 1) (fr - n * sizeof)
               (cc + S k) (dc + k) os)
    = Ret tt (mkWorld bs (p + Z.max (n * sizeof) 1) fr (cc + S k) (dc + k) os)).
  { unfold operator_delete. apply Z.eqb_neq in Hnz. rewrite Hnz. simpl.
    rewrite lookup_insert_eq. simpl. rewrite Z.eqb_refl, same_alignment_refl.
    simpl. unfold with_heap. simpl. rewrite delete_insert_eq.
    rewrite delete_id by done. f_equal. f_equal. lia. }
  fold form.
  destruct (alignment_v <=? STDCPP_DEFAULT_NEW_ALIGNMENT) eqn:Hform;
    unfold form, AlignedAllocator.new_form in Hdel; rewrite Hform in Hdel;
    rewrite Hdel; done.
Qed.

End RangeConstruction.

Section Access.
Context `{Platform} {T : Type} `{Element T} {alignment_v : Z}.

Local Abbreviation Self := (DynArray.t T alignment_v).
Local Abbreviation W := (World T Self).

Lemma check_range_null (this : nat) (o : Self) (i : Z) (w : W) :
  objects w !! this = Some o -> mem_ o = 0 ->
  check_range this i w = Throw (domain_error "uninitialized DynArray") w.
Proof.
  intros Ho Hm. unfold check_range.
  rewrite (bind_ret_eq _ _ _ _ _ (get_eq _ _ _ Ho)). by rewrite Hm.
Qed.

Lemma check_range_beyond (this : nat) (o : Self) (i : Z) (w : W) :
  objects w !! this = Some o -> mem_ o <> 0 -> n_ o <= i ->
  check_range this i w
  = Throw (out_of_range ("elt " +:+ to_string i +:+ ", size " +:+
                         to_string (n_ o))) w.
Proof.
  intros Ho Hm Hi. unfold check_range.
  rewrite (bind_ret_eq _ _ _ _ _ (get_eq _ _ _ Ho)).
  apply Z.eqb_neq in Hm. rewrite Hm.
  destruct (i >=? n_ o) eqn:Hge; [done|].
  rewrite Z.geb_leb in Hge. apply Z.leb_gt in Hge. lia.
Qed.

Lemma check_range_within (this : nat) (o : Self) (i : Z) (w : W) :
  objects w !! this = Some o -> mem_ o <> 0 -> i < n_ o ->
  check_range this i w = Ret tt w.
Proof.
  intros Ho Hm Hi. unfold check_range.
  rewrite (bind_ret_eq _ _ _ _ _ (get_eq _ _ _ Ho)).
  apply Z.eqb_neq in Hm. rewrite Hm.
  destruct (i >=? n_ o) eqn:Hge; [|done].
  rewrite Z.geb_leb in Hge. apply Z.leb_le in Hge. lia.
Qed.

Lemma at_is_op_index (this : nat) (i : Z) (w : W) :
  at_ this i w = op_index this i w.
Proof. done. Qed.

(** C4 (as amended).  Plain indexing and the checked accessor apply one and
    the same check.  On an array whose storage pointer is not null
    (whatever its size, zero included) every index [i >= size] raises
    [std::out_of_range] with the text ["elt i, size n"], and every index
    [i < size] yields the element at position [i] itself, neither clamped
    nor wrapped.  On an array in the empty/uninitialized state (null storage
    pointer) every index raises [std::domain_error("uninitialized
    DynArray")]: a failure of a different kind, which names neither the
    index nor the size. *)
Theorem bounds_checking (w : W) (this : nat) (o : Self) (i : Z) :
  objects w !! this = Some o -> 0 <= i ->
  at_ this i w = op_index this i w /\
  (mem_ o <> 0 -> n_ o <= i ->
     op_index this i w
     = Throw (out_of_range ("elt " +:+ to_string i +:+ ", size " +:+
                            to_string (n_ o))) w /\
     reports_out_of_range i (n_ o) (op_index this i w) = true) /\
  (mem_ o <> 0 -> i < n_ o ->
     op_index this i w = Ret (PtrIt (mem_ o) (Z.to_nat i)) w) /\
  (mem_ o = 0 ->
     op_index this i w = Throw (domain_error "uninitialized DynArray") w /\
     reports_out_of_range i (n_ o) (op_index this i w) = false).
Proof.
  intros Ho _. split; [done|]. unfold op_index. split; [|split].
  - intros Hm Hi.
    rewrite (bind_throw_eq _ _ _ _ _ (check_range_beyond _ _ _ _ Ho Hm Hi)).
    split; [done|]. simpl. apply String.eqb_refl.
  - intros Hm Hi.
    rewrite (bind_ret_eq _ _ _ _ _ (check_range_within _ _ _ _ Ho Hm Hi)).
    by rewrite (bind_ret_eq _ _ _ _ _ (get_eq _ _ _ Ho)).
  - intros Hm.
    by rewrite (bind_throw_eq _ _ _ _ _ (check_range_null _ _ _ _ Ho Hm)).
Qed.

End Access.

Section Failures.
Context `{PlatformOk} {T : Type} `{Element T} {alignment_v : Z}.

Local Abbreviation A := (AlignedAllocator.t T alignment_v).
Local Abbreviation Self := (DynArray.t T alignment_v).
Local Abbreviation W := (World T Self).

Lemma wrap_nonneg (x : Z) : 0 <= wrap x.
Proof.
  unfold wrap. apply Z.mod_pos_bound.
  pose proof size_type_bits_pos. apply Z.pow_pos_nonneg; lia.
Qed.

(** What [deallocate()] does to an array that satisfies the invariant: the
    members stay as they are, also the pointer to the block that is gone. *)
Lemma deallocate_spec (this : nat) (o : Self) (ws : list T) (w : W) :
  objects w !! this = Some o -> holds w o ws ->
  exists wd,
    deallocate this w = Ret tt wd /\
    objects wd = objects w /\
    heap_blocks wd = (if decide (mem_ o = 0) then heap_blocks w
                      else delete (mem_ o) (heap_blocks w)) /\
    heap_next wd = heap_next w /\
    heap_free w <= heap_free wd /\
    ctor_calls wd = ctor_calls w /\
    dtor_calls wd = (dtor_calls w + length ws)%nat.
Proof.
  intros Ho Hws. destruct (decide (mem_ o = 0)) as [Hz | Hnz].
  - exists w. rewrite (deallocate_null _ _ _ Ho Hz).
    destruct Hws as [(_ & _ & ->) | [Hnz _]]; [|done].
    simpl. repeat split; lia.
  - destruct w as [bs nx fr cc dc os]. simpl in *.
    eexists. rewrite (deallocate_owned _ _ _ _ _ _ _ _ _ Ho Hnz Hws).
    simpl. repeat split; try done. pose proof (wrap_nonneg (n_ o * sizeof)).
    simpl. lia.
Qed.

Lemma wf_heap_shrink (w w' : W) :
  wf_heap w -> heap_next w' = heap_next w ->
  (forall p b, heap_blocks w' !! p = Some b -> heap_blocks w !! p = Some b) ->
  wf_heap w'.
Proof.
  intros [Hnext Hblocks] Heq Hsub. split; [lia|].
  intros p b Hp. rewrite Heq. eauto.
Qed.

(** The first statements of [operator=(const DynArray &)] after
    [deallocate()]: the members of [this] become those of [that]. *)
Lemma copy_assign_members (this that : nat) (o_this o_that : Self) (w : W) :
  this <> that ->
  objects w !! this = Some o_this -> objects w !! that = Some o_that ->
  ((let! o := get that in set_mem_ this (mem_ o)) ;;
   (let! o := get that in
    set_alloc_ this
      (AlignedAllocator.select_on_container_copy_construction (alloc_ o))) ;;
   (let! o := get that in set_n_ this (n_ o))) w
  = Ret tt (with_objects w
      (<[this := mk (alloc_ o_that) (mem_ o_that) (n_ o_that)]> (objects w))).
Proof.
  intros Hne Hthis Hthat.
  destruct w as [bs nx fr cc dc os]. simpl in *.
  unfold set_alloc_, set_mem_, set_n_.
  unfold bind, get, put, ret, with_objects,
    AlignedAllocator.select_on_container_copy_construction.
  simpl.
  repeat (rewrite ?Hthat, ?Hthis, ?lookup_insert_eq; simpl;
          try rewrite lookup_insert_ne by done).
  by rewrite !insert_insert_eq.
Qed.

(** Copy assignment between two distinct arrays, when the copy constructor
    of element [k] of the source is the first to throw: the exception
    leaves the operator, and the destination is left pointing to the newly
    allocated block, with the size of the source, while every slot of that
    block is raw memory.  The block is not given back. *)
Lemma copy_assign_failure_general (w : W) (this that : nat)
    (o_this o_that : Self) (ws vs : list T) (k : nat) (x : T) (e : exn) :
  1 <= sizeof -> wf_heap w -> this <> that ->
  objects w !! this = Some o_this -> objects w !! that = Some o_that ->
  holds w o_this ws -> holds w o_that vs ->
  (mem_ o_this = 0 \/ mem_ o_this <> mem_ o_that) ->
  Z.of_nat (length vs) <= AlignedAllocator.max_size T ->
  Z.of_nat (length vs) * sizeof <= heap_free w ->
  vs !! k = Some x ->
  (forall j y, (j < k)%nat -> vs !! j = Some y ->
               exists y', copy_construct (ctor_calls w + j) y = Val y') ->
  copy_construct (ctor_calls w + k) x = Exc e ->
  exists w' p b,
    copy_assign this that w = Throw e w' /\
    p <> 0 /\
    objects w' !! this = Some (mk (alloc_ o_that) p (n_ o_that)) /\
    n_ o_that = Z.of_nat (length vs) /\
    heap_blocks w' !! p = Some b /\
    blk_slots b = replicate (length vs) None.
Proof.
  intros Hs Hwf Hne Hthis Hthat Hws Hvs Hsep Hmax Hfree Hk Hgood Hbad.
  destruct Hvs as [(_ & _ & ->) | (Hsrc & Hn & bsrc & Hbsrc & _ & _ & Hslots)];
    [done|].
  destruct o_that as [a_src m_src n_src]. simpl in *. subst n_src.
  destruct (deallocate_spec _ _ _ _ Hthis Hws)
    as (wd & Hd & Hobjs & Hblocks & Hnext & Hfr & Hcc & Hdc).
  assert (Hwfd : wf_heap wd).
  { apply (wf_heap_shrink w); [done..|]. intros p b. rewrite Hblocks.
    destruct (decide (mem_ o_this = 0)); [done|].
    rewrite lookup_delete_Some. tauto. }
  assert (Hsrc_d : heap_blocks wd !! m_src = Some bsrc).
  { rewrite Hblocks. destruct (decide (mem_ o_this = 0)); [done|].
    rewrite lookup_delete_ne; [done | destruct Hsep; congruence]. }
  destruct (AlignedAllocatorFacts.fresh_address (alignment_v := alignment_v)
              wd Hwfd) as [Hnz Hfresh].
  destruct wd as [bs nx fr cc dc os]. simpl in *. subst cc os.
  set (n := Z.of_nat (length vs)) in *.
  set (form := AlignedAllocator.new_form alignment_v) in *.
  set (p := align_up nx (requested_alignment form)) in *.
  set (b0 := mkBlock (T := T) (n * sizeof) form
                     (replicate (Z.to_nat n) None)).
  exists (mkWorld (<[p := b0]> bs) (p + Z.max (n * sizeof) 1)
                  (fr - n * sizeof) (ctor_calls w + S k) (dc + k)
                  (<[this := mk a_src p n]> (objects w))).
  exists p, b0.
  split; [|repeat split; try done].
  - unfold copy_assign. rewrite (bind_ret_eq _ _ _ _ _ Hd).
    pose proof (copy_assign_members this that o_this (mk a_src m_src n)
                  (mkWorld bs nx fr (ctor_calls w) dc (objects w))
                  Hne Hthis Hthat) as Hmembers.
    rewrite (bind3_ret_eq _ _ _ _ _ _ Hmembers).
    unfold with_objects. simpl.
    set (os1 := <[this := mk a_src m_src n]> (objects w)).
    unfold bind at 1. unfold bind at 1.
    rewrite (get_eq this (mk a_src m_src n)
               (mkWorld bs nx fr (ctor_calls w) dc os1))
      by apply lookup_insert_eq.
    unfold bind at 1. simpl.
    rewrite (AlignedAllocatorFacts.allocate_ok a_src n) by lia.
    fold form p b0.
    rewrite (set_mem__eq this (mk a_src m_src n) p)
      by (simpl; apply lookup_insert_eq).
    unfold with_objects. simpl. subst os1. rewrite insert_insert_eq.
    set (os2 := <[this := mk a_src p n]> (objects w)).
    assert (Hthat2 : os2 !! that = Some (mk a_src m_src n))
      by (subst os2; by rewrite lookup_insert_ne).
    unfold begin_, end_. unfold bind at 1. unfold bind at 1.
    rewrite (get_eq that (mk a_src m_src n)) by exact Hthat2.
    unfold ret at 1. unfold bind at 1. unfold bind at 1.
    rewrite (get_eq that (mk a_src m_src n)) by exact Hthat2.
    unfold ret at 1. unfold bind at 1.
    rewrite (get_eq this (mk a_src p n))
      by (simpl; subst os2; apply lookup_insert_eq).
    simpl. unfold uninitialized_copy.
    erewrite bind_ret_eq; cycle 1.
    { apply (distance_spans _ _ vs). simpl. split; [done|].
      subst n. by rewrite Nat2Z.id. }
    subst n. rewrite Nat2Z.id.
    pose proof (uninitialized_copy_loop_throws p
                  (Z.of_nat (length vs) * sizeof) form e x vs k
                  (PtrIt m_src 0) [] (length vs) (<[p := b0]> bs)
                  (p + Z.max (Z.of_nat (length vs) * sizeof) 1)
                  (fr - Z.of_nat (length vs) * sizeof)
                  (ctor_calls w) dc os2) as Hloop.
    simpl in Hloop. rewrite Hloop; try done.
    + rewrite insert_insert_eq. subst b0. rewrite Nat2Z.id.
      f_equal. f_equal. lia.
    + subst b0. rewrite Nat2Z.id. apply lookup_insert_eq.
    + exists bsrc. split.
      * rewrite lookup_insert_ne; [done | congruence].
      * intros j v Hj. rewrite Hslots, list_lookup_fmap, Hj. done.
    + congruence.
  - simpl. apply lookup_insert_eq.
  - simpl. apply lookup_insert_eq.
  - subst b0. simpl. subst n. by rewrite Nat2Z.id.
Qed.

(** [reset(n)] with a count the allocator refuses, on an array that owns a
    block: [std::bad_alloc] leaves the operation while the array still has
    the address of the block it has just released, and the new count. *)
Lemma reset_overflow_dangles (w : W) (this : nat) (o : Self) (ws : list T)
    (n : Z) :
  objects w !! this = Some o -> mem_ o <> 0 -> holds w o ws ->
  AlignedAllocator.max_size T < n ->
  exists w',
    reset this n w = Throw bad_alloc w' /\
    objects w' !! this = Some (mk (alloc_ o) (mem_ o) n) /\
    heap_blocks w' !! mem_ o = None.
Proof.
  intros Ho Hnz Hws Hbig.
  destruct (deallocate_spec _ _ _ _ Ho Hws)
    as (wd & Hd & Hobjs & Hblocks & _).
  destruct (decide (mem_ o = 0)); [done|].
  eexists. unfold reset. rewrite (bind_ret_eq _ _ _ _ _ Hd).
  rewrite (bind_ret_eq _ _ _ _ _ (set_n__eq this o n wd ltac:(by rewrite Hobjs))).
  unfold bind at 1. unfold bind at 1.
  rewrite (get_eq this (mk (alloc_ o) (mem_ o) n))
    by (simpl; apply lookup_insert_eq).
  unfold bind at 1. rewrite AlignedAllocatorFacts.allocate_too_large by done.
  split; [reflexivity|]. simpl. split; [apply lookup_insert_eq|].
  rewrite Hblocks. apply lookup_delete_eq.
Qed.

Lemma for_loop_add (from a b : nat) (body : nat -> M W unit) (w : W) :
  for_loop from (a + b) body w
  = (for_loop from a body ;; for_loop (from + a) b body) w.
Proof.
  revert from w. induction a as [|a IH]; intros from w; simpl.
  - by rewrite Nat.add_0_r.
  - unfold bind at 1 2 3. destruct (body from w) as [[] w1 | |]; [|done..].
    rewrite IH. by rewrite Nat.add_succ_r.
Qed.

(** The construction loop of the sized constructor and of [reset], as long
    as the constructor of the element type returns: slot after slot comes
    to hold the value made. *)
Lemma construct_loop_ok (p bytes : Z) (al : option Z) (args : Args) :
  forall (made pre : list T) (m : nat) bs nx fr cc dc (os : gmap nat Self),
    bs !! p = Some (mkBlock bytes al ((Some <$> pre) ++ replicate m None)) ->
    (length made <= m)%nat ->
    (forall j y, made !! j = Some y -> construct args (cc + j) = Val y) ->
    for_loop (length pre) (length made)
             (fun i => construct_at p i (construct args))
             (mkWorld bs nx fr cc dc os)
    = Ret tt (mkWorld
                (<[p := mkBlock bytes al
                          ((Some <$> (pre ++ made)) ++
                           replicate (m - length made) None)]> bs)
                nx fr (cc + length made) dc os).
Proof.
  induction made as [|y made IH]; intros pre m bs nx fr cc dc os Hp Hm Hmade.
  - simpl. unfold ret. rewrite app_nil_r, Nat.sub_0_r, Nat.add_0_r.
    by rewrite insert_id.
  - simpl in Hm. destruct m as [|m]; [lia|].
    pose proof (Hmade 0%nat y eq_refl) as Hy. rewrite Nat.add_0_r in Hy.
    set (bs' := <[p := mkBlock bytes al
                        ((Some <$> (pre ++ [y])) ++ replicate m None)]> bs).
    assert (Hstep :
      construct_at p (length pre) (construct args) (mkWorld bs nx fr cc dc os)
      = Ret tt (mkWorld bs' nx fr (S cc) dc os)).
    { unfold construct_at, run_ctor. unfold bind at 1. simpl.
      rewrite Hy. unfold placement_new, count_ctor. simpl. rewrite Hp. simpl.
      rewrite decide_True
        by (rewrite length_app, length_fmap; simpl; lia).
      unfold with_blocks. simpl. f_equal. f_equal. subst bs'. do 2 f_equal.
      rewrite insert_app_r_alt by (rewrite length_fmap; lia).
      rewrite length_fmap, Nat.sub_diag. simpl.
      rewrite fmap_app. simpl. by rewrite <- app_assoc. }
    simpl. rewrite (bind_ret_eq _ _ _ _ _ Hstep).
    specialize (IH (pre ++ [y]) m bs' nx fr (S cc) dc os).
    rewrite length_app in IH. simpl in IH.
    replace (length pre + 1)%nat with (S (length pre)) in IH by lia.
    rewrite IH; subst bs'.
    + rewrite insert_insert_eq, <- app_assoc. simpl.
      f_equal. f_equal. lia.
    + apply lookup_insert_eq.
    + lia.
    + intros j y0 Hj. rewrite <- (Hmade (S j) y0 Hj). f_equal. lia.
Qed.

(** The sized constructor when every element can be constructed: the new
    object satisfies the invariant and holds the values made.  This
    includes [n == 0], where the pointer is not null and there is no
    slot. *)
Lemma ctor_sized_establishes_invariant (w : W) (a : A) (args : Args)
    (made : list T) :
  1 <= sizeof -> wf_heap w ->
  Z.of_nat (length made) <= AlignedAllocator.max_size T ->
  Z.of_nat (length made) * sizeof <= heap_free w ->
  (forall j y, made !! j = Some y ->
               construct args (ctor_calls w + j) = Val y) ->
  exists w' o,
    ctor_sized (Z.of_nat (length made)) a args w = Ret o w' /\
    mem_ o <> 0 /\ n_ o = Z.of_nat (length made) /\
    holds w' o made /\
    heap_blocks w !! mem_ o = None /\
    heap_blocks w' = <[mem_ o := mkBlock (n_ o * sizeof)
                                   (AlignedAllocator.new_form alignment_v)
                                   (Some <$> made)]> (heap_blocks w) /\
    objects w' = objects w.
Proof.
  intros Hs Hwf Hmax Hfree Hmade.
  destruct (AlignedAllocatorFacts.fresh_address (alignment_v := alignment_v)
              w Hwf) as [Hnz Hfresh].
  destruct w as [bs nx fr cc dc os]. simpl in *.
  set (n := Z.of_nat (length made)) in *.
  set (form := AlignedAllocator.new_form alignment_v) in *.
  set (p := align_up nx (requested_alignment form)) in *.
  assert (Hwrap : wrap (n * sizeof) = n * sizeof).
  { apply (AlignedAllocatorFacts.allocate_in_range a n
             (mkWorld bs nx fr cc dc os)); lia. }
  eexists. exists (mk a p n). unfold ctor_sized.
  rewrite (bind_ret_eq _ _ _ _ _
             (AlignedAllocatorFacts.allocate_ok a n bs nx fr cc dc os
                Hs ltac:(lia) Hmax Hfree)).
  fold form p. subst n. rewrite Nat2Z.id.
  pose proof (construct_loop_ok p (Z.of_nat (length made) * sizeof) form args
                made [] (length made)
                (<[p := mkBlock (Z.of_nat (length made) * sizeof) form
                          (replicate (length made) None)]> bs)
                (p + Z.max (Z.of_nat (length made) * sizeof) 1)
                (fr - Z.of_nat (length made) * sizeof) cc dc os) as Hloop.
  simpl in Hloop.
  rewrite (bind_ret_eq _ _ _ _ _
             (Hloop ltac:(apply lookup_insert_eq) ltac:(lia) Hmade)).
  rewrite insert_insert_eq, Nat.sub_diag, app_nil_r.
  split; [reflexivity|]. simpl. repeat split; try done.
  right. simpl. repeat split; try done.
  eexists. split; [apply lookup_insert_eq|]. simpl. by rewrite Hwrap.
Qed.

(** The sized constructor when the constructor of element [length made] is
    the first to throw: the exception leaves the constructor with the
    elements made so far still alive in a block that is still allocated,
    and no destructor has run. *)
Lemma ctor_sized_failure_general (w : W) (a : A) (args : Args) (n : Z)
    (made : list T) (e : exn) :
  1 <= sizeof -> wf_heap w ->
  Z.of_nat (length made) < n -> n <= AlignedAllocator.max_size T ->
  n * sizeof <= heap_free w ->
  (forall j y, made !! j = Some y ->
               construct args (ctor_calls w + j) = Val y) ->
  construct args (ctor_calls w + length made) = Exc e ->
  exists w' p b,
    ctor_sized n a args w = Throw e w' /\
    heap_blocks w !! p = None /\
    heap_blocks w' = <[p := b]> (heap_blocks w) /\
    blk_slots b = (Some <$> made) ++
                  replicate (Z.to_nat n - length made) None /\
    heap_free w' = heap_free w - n * sizeof /\
    dtor_calls w' = dtor_calls w /\
    objects w' = objects w.
Proof.
  intros Hs Hwf Hk Hmax Hfree Hmade Hbad.
  destruct (AlignedAllocatorFacts.fresh_address (alignment_v := alignment_v)
              w Hwf) as [Hnz Hfresh].
  destruct w as [bs nx fr cc dc os]. simpl in *.
  set (form := AlignedAllocator.new_form alignment_v) in *.
  set (p := align_up nx (requested_alignment form)) in *.
  set (k := length made) in *.
  destruct (Z.to_nat n - k)%nat as [|rest] eqn:Hrest; [lia|].
  eexists. exists p. eexists. unfold ctor_sized.
  rewrite (bind_ret_eq _ _ _ _ _
             (AlignedAllocatorFacts.allocate_ok a n bs nx fr cc dc os
                Hs ltac:(lia) Hmax Hfree)).
  fold form p.
  replace (Z.to_nat n) with (k + S rest)%nat by lia.
  unfold bind at 1. rewrite for_loop_add.
  pose proof (construct_loop_ok p (n * sizeof) form args made [] (k + S rest)
                (<[p := mkBlock (n * sizeof) form
                          (replicate (k + S rest) None)]> bs)
                (p + Z.max (n * sizeof) 1) (fr - n * sizeof) cc dc os)
    as Hloop.
  simpl in Hloop. fold k in Hloop.
  rewrite (bind_ret_eq _ _ _ _ _
             (Hloop ltac:(apply lookup_insert_eq) ltac:(lia) Hmade)).
  simpl. unfold bind at 1. unfold construct_at, run_ctor. unfold bind at 1.
  simpl. rewrite Hbad. unfold count_ctor. simpl.
  split; [reflexivity|]. simpl. rewrite insert_insert_eq.
  replace (k + S rest - k)%nat with (S rest) by lia.
  repeat split; done.
Qed.

(** Self copy-assignment of an array that is not empty: [deallocate()] has
    destroyed the elements, and the copy reads its first source element
    from the block that was allocated a moment ago. *)
Lemma self_copy_assign_undefined (w : W) (this : nat) (o : Self)
    (vs : list T) :
  1 <= sizeof -> wf_heap w ->
  objects w !! this = Some o -> holds w o vs -> vs <> [] ->
  Z.of_nat (length vs) <= AlignedAllocator.max_size T ->
  Z.of_nat (length vs) * sizeof <= heap_free w ->
  copy_assign this this w = Undef ReadUnconstructed.
Proof.
  intros Hs Hwf Ho Hvs Hne Hmax Hfree.
  destruct (deallocate_spec _ _ _ _ Ho Hvs)
    as (wd & Hd & Hobjs & _ & _ & Hfr & _).
  destruct Hvs as [(_ & _ & ->) | (Hnz & Hn & _)]; [done|].
  destruct o as [a m n]. simpl in *. subst n.
  destruct wd as [bs nx fr cc dc os]. simpl in *. subst os.
  unfold copy_assign. rewrite (bind_ret_eq _ _ _ _ _ Hd).
  set (n := Z.of_nat (length vs)) in *.
  set (form := AlignedAllocator.new_form alignment_v).
  set (p := align_up nx (requested_alignment form)).
  assert (Hmembers :
    ((let! o := get this in set_mem_ this (mem_ o)) ;;
     (let! o := get this in
      set_alloc_ this
        (AlignedAllocator.select_on_container_copy_construction (alloc_ o))) ;;
     (let! o := get this in set_n_ this (n_ o)))
      (mkWorld bs nx fr cc dc (objects w))
    = Ret tt (mkWorld bs nx fr cc dc (<[this := mk a m n]> (objects w)))).
  { unfold set_alloc_, set_mem_, set_n_.
    unfold bind, get, put, ret, with_objects,
      AlignedAllocator.select_on_container_copy_construction.
    simpl. repeat (rewrite ?Ho, ?lookup_insert_eq; simpl).
    by rewrite !insert_insert_eq. }
  rewrite (bind3_ret_eq _ _ _ _ _ _ Hmembers).
  set (os1 := <[this := mk a m n]> (objects w)).
  unfold bind at 1. unfold bind at 1.
  rewrite (get_eq this (mk a m n) (mkWorld bs nx fr cc dc os1))
    by apply lookup_insert_eq.
  unfold bind at 1. simpl.
  rewrite (AlignedAllocatorFacts.allocate_ok a n) by lia.
  fold form p.
  rewrite (set_mem__eq this (mk a m n) p) by (simpl; apply lookup_insert_eq).
  unfold with_objects. simpl. subst os1. rewrite insert_insert_eq.
  set (os2 := <[this := mk a p n]> (objects w)).
  unfold begin_, end_. unfold bind at 1. unfold bind at 1.
  rewrite (get_eq this (mk a p n)) by apply lookup_insert_eq.
  unfold ret at 1. unfold bind at 1. unfold bind at 1.
  rewrite (get_eq this (mk a p n)) by apply lookup_insert_eq.
  unfold ret at 1. unfold bind at 1.
  rewrite (get_eq this (mk a p n)) by apply lookup_insert_eq.
  simpl. unfold uninitialized_copy.
  erewrite bind_ret_eq; cycle 1.
  { apply (distance_spans _ _ vs). simpl. split; [done|].
    subst n. by rewrite Nat2Z.id. }
  subst n. rewrite Nat2Z.id.
  destruct vs as [|v vs]; [done|]. simpl.
  unfold bind at 1. unfold load. simpl. rewrite lookup_insert_eq. simpl.
  reflexivity.
Qed.

End Failures.

End DynArrayFacts.

(** ** The concrete programs, run *)

Module ScenarioFacts.
Import DynArray DynArraySpec Scenario.

#[local] Existing Instance fourth_throws.

#[export] Instance x86_64_ok : PlatformOk.
Proof. split; [done | exists 4; split; [lia | reflexivity]]. Qed.

Lemma sizeof_probe : 1 <= sizeof.
Proof. done. Qed.

Lemma wf_fresh_world : wf_heap fresh_world.
Proof.
  split; [done|]. intros p b Hp. unfold fresh_world in Hp. simpl in Hp.
  by rewrite lookup_empty in Hp.
Qed.

(** The stores used below are states the constructors themselves produce. *)
Lemma two_arrays_reachable :
  (construct_object 0 (ctor_init_list [1; 2; 3] a16) ;;
   construct_object 1 (ctor_fill 1 7 a16)) fresh_world
  = Ret tt two_arrays.
Proof. vm_compute. reflexivity. Qed.

Lemma one_array_reachable :
  construct_object 0 (ctor_init_list [1; 2] a16) fresh_world
  = Ret tt one_array.
Proof. vm_compute. reflexivity. Qed.

Lemma after_move_reachable :
  construct_object 1 (ctor_move 0) one_array = Ret tt after_move.
Proof. vm_compute. reflexivity. Qed.

Lemma holds_two_arrays_0 : holds two_arrays (mk a16 16 3) [1; 2; 3].
Proof. right. repeat split; try done. by eexists. Qed.

Lemma holds_two_arrays_1 : holds two_arrays (mk a16 32 1) [7].
Proof. right. repeat split; try done. by eexists. Qed.

(** Witness of C9: a request of [2^62] four-byte elements overflows the
    size type and is refused. *)
Lemma allocate_overflow_detection_witness :
  is_pow2 64 /\ wf_heap fresh_world /\
  size_type_max < 2 ^ 62 * sizeof /\
  AlignedAllocator.allocate a64 (2 ^ 62) fresh_world
  = Throw bad_alloc fresh_world.
Proof.
  assert (Hpow : is_pow2 64) by (exists 6; split; [lia | reflexivity]).
  assert (Hbig : size_type_max < 2 ^ 62 * sizeof) by done.
  split; [exact Hpow|]. split; [exact wf_fresh_world|]. split; [exact Hbig|].
  destruct (AlignedAllocatorFacts.allocate_overflow_detection
              a64 (2 ^ 62) fresh_world sizeof_probe Hpow wf_fresh_world)
    as (_ & Hthrow & _).
  - vm_compute. split; discriminate.
  - exact (Hthrow Hbig).
Defined.

(** Witness of C4: index 3 of the three-element array 0. *)
Lemma bounds_checking_witness :
  objects two_arrays !! 0%nat = Some (mk a16 16 3) /\
  op_index 0 3 two_arrays = Throw (out_of_range "elt 3, size 3") two_arrays /\
  at_ 0 3 two_arrays = Throw (out_of_range "elt 3, size 3") two_arrays.
Proof.
  assert (Ho : objects two_arrays !! 0%nat = Some (mk a16 16 3))
    by reflexivity.
  destruct (DynArrayFacts.bounds_checking two_arrays 0 (mk a16 16 3) 3 Ho)
    as (Hat & Hbeyond & _); [lia|].
  destruct Hbeyond as [Hthrow _]; [done | simpl; lia |].
  split; [exact Ho|]. split; [exact Hthrow|].
  rewrite Hat. exact Hthrow.
Defined.

(** Counterexample to C4 as stated: array 0 of [after_move] is in the
    empty/uninitialized state, its size is 0 and the index 0 is not below
    it, yet neither accessor reports the out-of-range failure naming the
    index and the size: both throw [std::domain_error]. *)
Lemma bounds_checking_counterexample :
  objects after_move !! 0%nat = Some (mk a16 0 0) /\
  op_index 0 0 after_move
  = Throw (domain_error "uninitialized DynArray") after_move /\
  at_ 0 0 after_move
  = Throw (domain_error "uninitialized DynArray") after_move /\
  reports_out_of_range 0 0 (op_index 0 0 after_move) = false /\
  reports_out_of_range 0 0 (at_ 0 0 after_move) = false.
Proof. vm_compute. repeat split; reflexivity. Qed.

(** Witness of C6: array 0 of [two_arrays] is moved into a new object 2,
    and into the existing array 1. *)
Lemma move_semantics_witness :
  (exists w1,
     construct_object 2 (ctor_move 0) two_arrays = Ret tt w1 /\
     holds w1 (mk a16 16 3) [1; 2; 3] /\ moved_from w1 0) /\
  (exists w2,
     move_assign 1 0 two_arrays = Ret tt w2 /\
     holds w2 (mk a16 16 3) [1; 2; 3] /\ moved_from w2 0 /\
     heap_blocks w2 = delete 32 (heap_blocks two_arrays)).
Proof.
  destruct (DynArrayFacts.move_semantics two_arrays 0 1 2
              (mk a16 16 3) (mk a16 32 1) [1; 2; 3] [7])
    as [(w1 & Hctor & _ & Hholds1 & Hmoved1 & _)
        (wd & w2 & _ & _ & Hwd & _ & Hassign & _ & Hholds2 & Hmoved2 & _ & _
            & Hblocks & _)];
    try done.
  - exact holds_two_arrays_0.
  - exact holds_two_arrays_1.
  - right. done.
  - split.
    + exists w1. done.
    + exists w2. repeat split; try done. by rewrite Hblocks, Hwd.
Defined.

(** Witness of C7: the range [{7, 13, 9}], whose second element cannot be
    copied. *)
Lemma range_construction_exception_safety_witness :
  exists w',
    ctor_range (SeqIt [7; 13; 9]) (SeqIt []) a16 fresh_world
    = Throw (user_exception 13) w' /\
    heap_blocks w' = heap_blocks fresh_world /\
    heap_free w' = heap_free fresh_world /\
    objects w' = objects fresh_world /\
    ctor_calls w' = 2%nat /\ dtor_calls w' = 1%nat.
Proof.
  apply (DynArrayFacts.range_construction_exception_safety fresh_world
           (SeqIt [7; 13; 9]) (SeqIt []) a16 [7; 13; 9] 1 13
           (user_exception 13)).
  - exact sizeof_probe.
  - exact wf_fresh_world.
  - reflexivity.
  - by exists [].
  - vm_compute. discriminate.
  - vm_compute. discriminate.
  - reflexivity.
  - intros [|j] y Hj Hy; [|lia]. injection Hy as <-. by exists 7.
  - reflexivity.
Defined.

Lemma holds_one_array : holds one_array (mk a16 16 2) [1; 2].
Proof. right. repeat split; try done. by eexists. Qed.

(** C1.  Copy assignment of [{7, 13}] to [{1}]: the copy constructor of the
    second element throws, and the exception reaches the caller, but the
    block allocated for the copy (at address 48) is still allocated, and
    the destination keeps pointing to it with size 2 although none of its
    slots holds an object.  The invariant of the destination is broken,
    and its destructor destroys an object that was never constructed. *)
Theorem copy_assign_failure_keeps_block :
  copy_assign 0 1 poisoned_source
  = Throw (user_exception 13) after_failed_copy_assign /\
  objects after_failed_copy_assign !! 0%nat = Some (mk a16 48 2) /\
  heap_blocks after_failed_copy_assign !! 48
  = Some (mkBlock 8 None [None; None]) /\
  heap_free after_failed_copy_assign = heap_free poisoned_source + 4 - 8 /\
  ~ obj_inv after_failed_copy_assign (mk a16 48 2) /\
  destructor 0 after_failed_copy_assign = Undef DestroyUnconstructed.
Proof.
  split; [vm_compute; reflexivity|]. repeat split; try reflexivity.
  intros [vs [[Hm _] | (_ & _ & b & Hb & _ & _ & Hslots)]]; [done|].
  vm_compute in Hb. injection Hb as <-. simpl in Hslots.
  by destruct vs as [|? [|? ?]].
Qed.

(** C2.  [reset] that fails.  With 20 bytes available after the old block
    is released, [reset(1000)] throws [std::bad_alloc] and leaves the array
    with the address of the released block and size 1000.  When instead the
    second of three new elements cannot be constructed, [reset(3)] leaves
    the array with a new block, size 3 and one live element.  In neither
    case is the array in the empty/uninitialized state, and in both its
    destructor has undefined behaviour. *)
Theorem reset_failure_not_empty :
  (reset 0 1000 nearly_full = Throw bad_alloc after_failed_reset_allocation /\
   objects after_failed_reset_allocation !! 0%nat = Some (mk a16 16 1000) /\
   heap_blocks after_failed_reset_allocation !! 16 = None /\
   ~ moved_from after_failed_reset_allocation 0 /\
   destructor 0 after_failed_reset_allocation = Undef BadPointer) /\
  (reset 0 3 one_array
   = Throw (user_exception 1) after_failed_reset_construction /\
   objects after_failed_reset_construction !! 0%nat = Some (mk a16 32 3) /\
   heap_blocks after_failed_reset_construction !! 32
   = Some (mkBlock 12 None [Some 0; None; None]) /\
   ~ moved_from after_failed_reset_construction 0 /\
   destructor 0 after_failed_reset_construction
   = Undef DestroyUnconstructed).
Proof.
  split.
  - split; [vm_compute; reflexivity|]. repeat split; try reflexivity.
    intros (o & Ho & Hm & _). vm_compute in Ho. by injection Ho as <-.
  - split; [vm_compute; reflexivity|]. repeat split; try reflexivity.
    intros (o & Ho & Hm & _). vm_compute in Ho. by injection Ho as <-.
Qed.

(** C3.  The sized constructor for five elements, the fourth of which
    cannot be constructed: the exception reaches the caller and no object
    comes into being, but the three elements constructed before are still
    alive, no destructor has run, and the block is still allocated. *)
Theorem sized_ctor_failure_leaks :
  construct_object 0 (ctor_sized 5 a16 (Some 9)) fresh_world
  = Throw (user_exception 1) after_failed_sized_ctor /\
  heap_blocks after_failed_sized_ctor !! 16
  = Some (mkBlock 20 None [Some 9; Some 9; Some 9; None; None]) /\
  heap_free after_failed_sized_ctor = heap_free fresh_world - 20 /\
  dtor_calls after_failed_sized_ctor = dtor_calls fresh_world /\
  objects after_failed_sized_ctor = ∅.
Proof. split; [vm_compute; reflexivity|]. repeat split; reflexivity. Qed.

(** C5.  The structural invariant holds for an array constructed with
    [n == 0], whose pointer is not null.  It holds for array 0 of
    [one_array], and no longer after [reset(3)] on it has failed: the
    pointer is not null and the size is 3, but only one of the three slots
    holds a live object. *)
Theorem invariant_broken_by_failed_reset :
  (exists w, construct_object 0 (ctor_sized 0 a16 None) fresh_world = Ret tt w /\
             objects w !! 0%nat = Some (mk a16 16 0) /\
             obj_inv w (mk a16 16 0)) /\
  obj_inv one_array (mk a16 16 2) /\
  reset 0 3 one_array
  = Throw (user_exception 1) after_failed_reset_construction /\
  objects after_failed_reset_construction !! 0%nat = Some (mk a16 32 3) /\
  ~ obj_inv after_failed_reset_construction (mk a16 32 3).
Proof.
  split; [|split; [|split; [|split]]].
  - eexists. split; [vm_compute; reflexivity|]. split; [reflexivity|].
    exists []. right. repeat split; try done. by eexists.
  - exists [1; 2]. exact holds_one_array.
  - vm_compute. reflexivity.
  - reflexivity.
  - intros [vs [[Hm _] | (_ & _ & b & Hb & _ & _ & Hslots)]]; [done|].
    vm_compute in Hb. injection Hb as <-. simpl in Hslots.
    by destruct vs as [|? [|? ?]].
Qed.

(** C10.  Self copy-assignment of the array [{1, 2}]: [deallocate()] first
    destroys both elements and releases the block; the source of the copy
    is then the newly allocated block itself, and copying its first element
    reads an object that was never constructed. *)
Theorem self_copy_assign_loses_elements :
  holds one_array (mk a16 16 2) [1; 2] /\
  deallocate 0 one_array
  = Ret tt (mkWorld ∅ 24 1024 2 2 (objects one_array)) /\
  copy_assign 0 0 one_array = Undef ReadUnconstructed.
Proof.
  split; [exact holds_one_array|].
  split; vm_compute; reflexivity.
Qed.

End ScenarioFacts.

(** ** Facts about the members the claims do not reach *)

Module DynArrayRestFacts.
Import DynArray DynArraySpec DynArrayRest DynArrayRestSpec DynArrayFacts.

Section Construction.
Context `{PlatformOk} {T : Type} `{Element T} {alignment_v : Z}.

Local Abbreviation A := (AlignedAllocator.t T alignment_v).
Local Abbreviation Self := (DynArray.t T alignment_v).
Local Abbreviation W := (World T Self).

Lemma copied_from_tail (cc : nat) (x y : T) (vs ys : list T) :
  copied_from cc (x :: vs) (y :: ys) ->
  copy_construct cc x = Val y /\ copied_from (S cc) vs ys.
Proof.
  intros [Hlen Hcopy]. split.
  - rewrite <- (Hcopy 0%nat x y eq_refl eq_refl). f_equal. lia.
  - split; [simpl in Hlen; lia|]. intros j x' y' Hx Hy.
    rewrite <- (Hcopy (S j) x' y' Hx Hy). f_equal. lia.
Qed.

(** [std::uninitialized_copy] when every copy constructor returns: the
    copies fill the slots in order. *)
Lemma uninitialized_copy_loop_ok (p bytes : Z) (al : option Z) :
  forall (vs ys : list T) (first : iterator T) (done_ : list T) (m : nat)
         bs nx fr cc dc (os : gmap nat Self),
    bs !! p = Some (mkBlock bytes al ((Some <$> done_) ++ replicate m None)) ->
    (length vs <= m)%nat ->
    (vs <> [] -> readable (mkWorld bs nx fr cc dc os) first vs) ->
    (vs <> [] -> ~ points_into first p) ->
    copied_from cc vs ys ->
    uninitialized_copy_loop first (length vs) p (length done_)
                            (mkWorld bs nx fr cc dc os)
    = Ret tt (mkWorld
                (<[p := mkBlock bytes al
                          ((Some <$> (done_ ++ ys)) ++
                           replicate (m - length vs) None)]> bs)
                nx fr (cc + length vs) dc os).
Proof.
  induction vs as [|v vs IH];
    intros ys first done_ m bs nx fr cc dc os Hp Hm Hread Hout Hcopy.
  - destruct Hcopy as [Hlen _]. destruct ys; [|done].
    simpl. unfold ret. rewrite app_nil_r, Nat.sub_0_r, Nat.add_0_r.
    by rewrite insert_id.
  - destruct ys as [|y ys]; [by destruct Hcopy|].
    apply copied_from_tail in Hcopy as [Hy Hcopy].
    specialize (Hread ltac:(done)). specialize (Hout ltac:(done)).
    apply readable_next in Hread as [Hderef Hread].
    simpl in Hm. destruct m as [|m]; [lia|].
    simpl. rewrite (bind_ret_eq _ _ _ _ _ Hderef).
    set (bs' := <[p := mkBlock bytes al
                        ((Some <$> (done_ ++ [y])) ++ replicate m None)]> bs).
    assert (Hstep :
      try_catch (construct_at p (length done_) (fun k => copy_construct k v))
                (fun e => destroy_range p (length done_) ;; throw e)
                (mkWorld bs nx fr cc dc os)
      = Ret tt (mkWorld bs' nx fr (S cc) dc os)).
    { unfold try_catch, construct_at, run_ctor. unfold bind at 1. simpl.
      rewrite Hy. unfold placement_new, count_ctor. simpl. rewrite Hp. simpl.
      rewrite decide_True
        by (rewrite length_app, length_fmap; simpl; lia).
      unfold with_blocks. simpl. f_equal. f_equal. subst bs'. do 2 f_equal.
      rewrite insert_app_r_alt by (rewrite length_fmap; lia).
      rewrite length_fmap, Nat.sub_diag. simpl.
      rewrite fmap_app. simpl. by rewrite <- app_assoc. }
    rewrite (bind_ret_eq _ _ _ _ _ Hstep).
    specialize (IH ys (next first) (done_ ++ [y]) m bs' nx fr (S cc) dc os).
    rewrite length_app in IH. simpl in IH.
    replace (length done_ + 1)%nat with (S (length done_)) in IH by lia.
    rewrite IH; subst bs'.
    + rewrite insert_insert_eq, <- app_assoc. simpl.
      f_equal. f_equal. lia.
    + apply lookup_insert_eq.
    + lia.
    + intros _. eapply (readable_frame _ _ _ _ p);
        [by rewrite points_into_next | | exact Hread].
      intros q Hq. simpl. by apply lookup_insert_ne.
    + intros _. by rewrite points_into_next.
    + done.
Qed.

(** [std::uninitialized_fill] when every copy constructor returns. *)
Lemma uninitialized_fill_loop_ok (p bytes : Z) (al : option Z) (v : T) :
  forall (ys : list T) (done_ : list T) (m : nat)
         bs nx fr cc dc (os : gmap nat Self),
    bs !! p = Some (mkBlock bytes al ((Some <$> done_) ++ replicate m None)) ->
    (length ys <= m)%nat ->
    copied_from cc (replicate (length ys) v) ys ->
    uninitialized_fill_loop (length ys) p (length done_) v
                            (mkWorld bs nx fr cc dc os)
    = Ret tt (mkWorld
                (<[p := mkBlock bytes al
                          ((Some <$> (done_ ++ ys)) ++
                           replicate (m - length ys) None)]> bs)
                nx fr (cc + length ys) dc os).
Proof.
  induction ys as [|y ys IH]; intros done_ m bs nx fr cc dc os Hp Hm Hcopy.
  - simpl. unfold ret. rewrite app_nil_r, Nat.sub_0_r, Nat.add_0_r.
    by rewrite insert_id.
  - simpl in Hcopy. apply copied_from_tail in Hcopy as [Hy Hcopy].
    simpl in Hm. destruct m as [|m]; [lia|].
    simpl.
    set (bs' := <[p := mkBlock bytes al
                        ((Some <$> (done_ ++ [y])) ++ replicate m None)]> bs).
    assert (Hstep :
      try_catch (construct_at p (length done_) (fun k => copy_construct k v))
                (fun e => destroy_range p (length done_) ;; throw e)
                (mkWorld bs nx fr cc dc os)
      = Ret tt (mkWorld bs' nx fr (S cc) dc os)).
    { unfold try_catch, construct_at, run_ctor. unfold bind at 1. simpl.
      rewrite Hy. unfold placement_new, count_ctor. simpl. rewrite Hp. simpl.
      rewrite decide_True
        by (rewrite length_app, length_fmap; simpl; lia).
      unfold with_blocks. simpl. f_equal. f_equal. subst bs'. do 2 f_equal.
      rewrite insert_app_r_alt by (rewrite length_fmap; lia).
      rewrite length_fmap, Nat.sub_diag. simpl.
      rewrite fmap_app. simpl. by rewrite <- app_assoc. }
    rewrite (bind_ret_eq _ _ _ _ _ Hstep).
    specialize (IH (done_ ++ [y]) m bs' nx fr (S cc) dc os).
    rewrite length_app in IH. simpl in IH.
    replace (length done_ + 1)%nat with (S (length done_)) in IH by lia.
    rewrite IH; subst bs'.
    + rewrite insert_insert_eq, <- app_assoc. simpl.
      f_equal. f_equal. lia.
    + apply lookup_insert_eq.
    + lia.
    + done.
Qed.

Lemma constructs_intro (a : A) (p : Z) (ys : list T) (nx' : Z) (calls : nat)
    bs nx fr cc dc (os : gmap nat Self) :
  1 <= sizeof -> p <> 0 -> bs !! p = None ->
  Z.of_nat (length ys) <= AlignedAllocator.max_size T ->
  constructs (mkWorld bs nx fr cc dc os)
    (Ret (mk a p (Z.of_nat (length ys)))
         (mkWorld (<[p := mkBlock (Z.of_nat (length ys) * sizeof)
                                  (AlignedAllocator.new_form alignment_v)
                                  (Some <$> ys)]> bs)
                  nx' (fr - Z.of_nat (length ys) * sizeof)
                  (cc + calls) dc os))
    ys calls.
Proof.
  intros Hs Hnz Hfresh Hmax. simpl. repeat split; try done.
  right. simpl. repeat split; try done.
  eexists. split; [apply lookup_insert_eq|]. simpl. split; [|done].
  symmetry.
  apply (AlignedAllocatorFacts.allocate_in_range a (Z.of_nat (length ys))
           (mkWorld bs nx fr cc dc os)); lia.
Qed.

(** The two steps every copying constructor takes, when allocation and
    all copies succeed. *)
Lemma allocate_then_copy (a : A) (first last : iterator T) (vs ys : list T)
    bs nx fr cc dc (os : gmap nat Self) :
  1 <= sizeof ->
  spans first last vs ->
  (vs <> [] -> readable (mkWorld bs nx fr cc dc os) first vs) ->
  Z.of_nat (length vs) <= AlignedAllocator.max_size T ->
  Z.of_nat (length vs) * sizeof <= fr ->
  copied_from cc vs ys ->
  let n := Z.of_nat (length vs) in
  let form := AlignedAllocator.new_form alignment_v in
  let p := align_up nx (requested_alignment form) in
  bs !! p = None ->
  exists w1,
    AlignedAllocator.allocate a n (mkWorld bs nx fr cc dc os) = Ret p w1 /\
    uninitialized_copy first last p w1
    = Ret tt (mkWorld (<[p := mkBlock (Z.of_nat (length ys) * sizeof) form
                                      (Some <$> ys)]> bs)
                      (p + Z.max (n * sizeof) 1)
                      (fr - Z.of_nat (length ys) * sizeof)
                      (cc + length ys) dc os).
Proof.
  intros Hs Hspan Hread Hmax Hfree Hcopy n form p Hfresh.
  assert (Hlen : length ys = length vs) by apply Hcopy.
  eexists. split.
  { apply AlignedAllocatorFacts.allocate_ok; try done. lia. }
  fold form p. unfold uninitialized_copy.
  rewrite (bind_ret_eq _ _ _ _ _ (distance_spans _ _ _ _ Hspan)).
  subst n. rewrite Nat2Z.id.
  pose proof (uninitialized_copy_loop_ok p (Z.of_nat (length vs) * sizeof)
                form vs ys first [] (length vs)
                (<[p := mkBlock (Z.of_nat (length vs) * sizeof) form
                          (replicate (length vs) None)]> bs)
                (p + Z.max (Z.of_nat (length vs) * sizeof) 1)
                (fr - Z.of_nat (length vs) * sizeof) cc dc os) as Hloop.
  simpl in Hloop. rewrite Hloop; try done.
  - rewrite insert_insert_eq, Nat.sub_diag, app_nil_r, Hlen. done.
  - apply lookup_insert_eq.
  - intros Hne. eapply (readable_frame _ _ _ _ p); [| |exact (Hread Hne)].
    + by eapply readable_not_fresh; [exact (Hread Hne)|].
    + intros q Hq. simpl. by apply lookup_insert_ne.
  - intros Hne. by eapply readable_not_fresh; [exact (Hread Hne)|].
Qed.

(** The sized constructor run to its end. *)
Lemma ctor_sized_runs (a : A) (args : Args) (ys : list T)
    bs nx fr cc dc (os : gmap nat Self) :
  1 <= sizeof ->
  Z.of_nat (length ys) <= AlignedAllocator.max_size T ->
  Z.of_nat (length ys) * sizeof <= fr ->
  made_by args cc ys ->
  let form := AlignedAllocator.new_form alignment_v in
  let p := align_up nx (requested_alignment form) in
  ctor_sized (Z.of_nat (length ys)) a args (mkWorld bs nx fr cc dc os)
  = Ret (mk a p (Z.of_nat (length ys)))
        (mkWorld (<[p := mkBlock (Z.of_nat (length ys) * sizeof) form
                                 (Some <$> ys)]> bs)
                 (p + Z.max (Z.of_nat (length ys) * sizeof) 1)
                 (fr - Z.of_nat (length ys) * sizeof)
                 (cc + length ys) dc os).
Proof.
  intros Hs Hmax Hfree Hmade form p.
  unfold ctor_sized.
  rewrite (bind_ret_eq _ _ _ _ _
             (AlignedAllocatorFacts.allocate_ok a (Z.of_nat (length ys))
                bs nx fr cc dc os Hs ltac:(lia) Hmax Hfree)).
  fold form p. rewrite Nat2Z.id.
  pose proof (construct_loop_ok p (Z.of_nat (length ys) * sizeof) form args
                ys [] (length ys)
                (<[p := mkBlock (Z.of_nat (length ys) * sizeof) form
                          (replicate (length ys) None)]> bs)
                (p + Z.max (Z.of_nat (length ys) * sizeof) 1)
                (fr - Z.of_nat (length ys) * sizeof) cc dc os) as Hloop.
  simpl in Hloop.
  rewrite (bind_ret_eq _ _ _ _ _
             (Hloop ltac:(apply lookup_insert_eq) ltac:(lia) Hmade)).
  by rewrite insert_insert_eq, Nat.sub_diag, app_nil_r.
Qed.

(** X1. The sized constructor, when the memory is there and the
    constructor of the element type returns for each of the [n] elements:
    the new array owns a fresh block of [n] elements, each made by
    [T(args...)] in index order; the rest of the store is as before, [n]
    constructors and no destructor have run. *)
Theorem sized_construction (w : W) (a : A) (args : Args) (ys : list T) :
  1 <= sizeof -> wf_heap w ->
  Z.of_nat (length ys) <= AlignedAllocator.max_size T ->
  Z.of_nat (length ys) * sizeof <= heap_free w ->
  made_by args (ctor_calls w) ys ->
  constructs w (ctor_sized (Z.of_nat (length ys)) a args w) ys (length ys).
Proof.
  intros Hs Hwf Hmax Hfree Hmade.
  destruct (AlignedAllocatorFacts.fresh_address (alignment_v := alignment_v)
              w Hwf) as [Hnz Hfresh].
  destruct w as [bs nx fr cc dc os]. simpl in *.
  rewrite ctor_sized_runs by done.
  by apply constructs_intro.
Qed.

(** X2. The constructor from a count and a value, when the memory is
    there and every copy of the value succeeds: the new array owns a fresh
    block holding the [n] copies, in the order in which they were made. *)
Theorem fill_construction (w : W) (a : A) (v : T) (ys : list T) :
  1 <= sizeof -> wf_heap w ->
  Z.of_nat (length ys) <= AlignedAllocator.max_size T ->
  Z.of_nat (length ys) * sizeof <= heap_free w ->
  copied_from (ctor_calls w) (replicate (length ys) v) ys ->
  constructs w (ctor_fill (Z.of_nat (length ys)) v a w) ys (length ys).
Proof.
  intros Hs Hwf Hmax Hfree Hcopy.
  destruct (AlignedAllocatorFacts.fresh_address (alignment_v := alignment_v)
              w Hwf) as [Hnz Hfresh].
  destruct w as [bs nx fr cc dc os]. simpl in *.
  set (form := AlignedAllocator.new_form alignment_v) in *.
  set (p := align_up nx (requested_alignment form)) in *.
  unfold ctor_fill.
  rewrite (bind_ret_eq _ _ _ _ _
             (AlignedAllocatorFacts.allocate_ok a (Z.of_nat (length ys))
                bs nx fr cc dc os Hs ltac:(lia) Hmax Hfree)).
  fold form p. rewrite Nat2Z.id.
  pose proof (uninitialized_fill_loop_ok p (Z.of_nat (length ys) * sizeof)
                form v ys [] (length ys)
                (<[p := mkBlock (Z.of_nat (length ys) * sizeof) form
                          (replicate (length ys) None)]> bs)
                (p + Z.max (Z.of_nat (length ys) * sizeof) 1)
                (fr - Z.of_nat (length ys) * sizeof) cc dc os) as Hloop.
  simpl in Hloop.
  rewrite (bind_ret_eq _ _ _ _ _
             (Hloop ltac:(apply lookup_insert_eq) ltac:(lia) Hcopy)).
  rewrite insert_insert_eq, Nat.sub_diag, app_nil_r.
  by apply constructs_intro.
Qed.

(** The range constructor run to its end. *)
Lemma ctor_range_runs (a : A) (first last : iterator T) (vs ys : list T)
    bs nx fr cc dc (os : gmap nat Self) :
  1 <= sizeof ->
  spans first last vs ->
  (vs <> [] -> readable (mkWorld bs nx fr cc dc os) first vs) ->
  Z.of_nat (length vs) <= AlignedAllocator.max_size T ->
  Z.of_nat (length vs) * sizeof <= fr ->
  copied_from cc vs ys ->
  let form := AlignedAllocator.new_form alignment_v in
  let p := align_up nx (requested_alignment form) in
  bs !! p = None ->
  ctor_range first last a (mkWorld bs nx fr cc dc os)
  = Ret (mk a p (Z.of_nat (length ys)))
        (mkWorld (<[p := mkBlock (Z.of_nat (length ys) * sizeof) form
                                 (Some <$> ys)]> bs)
                 (p + Z.max (Z.of_nat (length vs) * sizeof) 1)
                 (fr - Z.of_nat (length ys) * sizeof)
                 (cc + length ys) dc os).
Proof.
  intros Hs Hspan Hread Hmax Hfree Hcopy form p Hfresh.
  assert (Hlen : length ys = length vs) by apply Hcopy.
  destruct (allocate_then_copy a first last vs ys bs nx fr cc dc os)
    as (w1 & Halloc & Hcp); try done.
  unfold ctor_range.
  rewrite (bind_ret_eq _ _ _ _ _ (distance_spans _ _ _ _ Hspan)).
  rewrite (bind_ret_eq _ _ _ _ _ Halloc).
  unfold bind at 1. unfold try_catch. simpl in Hcp. rewrite Hcp.
  unfold ret. subst form p. by rewrite Hlen.
Qed.

(** X3. The range constructor, when the memory is there and every copy
    succeeds: the new array owns a fresh block holding the copies of the
    elements of [[first, last)], in range order.  No existing block is
    touched, so the source still delivers the same values. *)
Theorem range_construction (w : W) (first last : iterator T) (a : A)
    (vs ys : list T) :
  1 <= sizeof -> wf_heap w ->
  spans first last vs -> readable w first vs ->
  Z.of_nat (length vs) <= AlignedAllocator.max_size T ->
  Z.of_nat (length vs) * sizeof <= heap_free w ->
  copied_from (ctor_calls w) vs ys ->
  constructs w (ctor_range first last a w) ys (length ys) /\
  forall o w', ctor_range first last a w = Ret o w' -> readable w' first vs.
Proof.
  intros Hs Hwf Hspan Hread Hmax Hfree Hcopy.
  destruct (AlignedAllocatorFacts.fresh_address (alignment_v := alignment_v)
              w Hwf) as [Hnz Hfresh].
  assert (Hlen : length ys = length vs) by apply Hcopy.
  destruct w as [bs nx fr cc dc os]. simpl in Hnz, Hfresh, Hfree, Hcopy.
  rewrite (ctor_range_runs a first last vs ys bs nx fr cc dc os) by done.
  split.
  - apply constructs_intro; try done. by rewrite Hlen.
  - intros o w' [= <- <-].
    eapply (readable_frame _ _ _ _ _); [| |exact Hread].
    + by eapply readable_not_fresh.
    + intros q Hq. simpl. by apply lookup_insert_ne.
Qed.

(** X4. The constructor from an initializer list, when the memory is there
    and every copy succeeds: the new array holds the copies of the list's
    entries, in list order. *)
Theorem init_list_construction (w : W) (init_list : list T) (a : A)
    (ys : list T) :
  1 <= sizeof -> wf_heap w ->
  Z.of_nat (length init_list) <= AlignedAllocator.max_size T ->
  Z.of_nat (length init_list) * sizeof <= heap_free w ->
  copied_from (ctor_calls w) init_list ys ->
  constructs w (ctor_init_list init_list a w) ys (length ys).
Proof.
  intros Hs Hwf Hmax Hfree Hcopy.
  destruct (AlignedAllocatorFacts.fresh_address (alignment_v := alignment_v)
              w Hwf) as [Hnz Hfresh].
  assert (Hlen : length ys = length init_list) by apply Hcopy.
  destruct w as [bs nx fr cc dc os]. simpl in *.
  destruct (allocate_then_copy a (SeqIt init_list) (SeqIt []) init_list ys
              bs nx fr cc dc os)
    as (w1 & Halloc & Hcp); try done.
  { simpl. by rewrite app_nil_r. }
  { intros _. by exists []; rewrite app_nil_r. }
  unfold ctor_init_list.
  rewrite (bind_ret_eq _ _ _ _ _ Halloc), (bind_ret_eq _ _ _ _ _ Hcp).
  unfold ret. rewrite <- Hlen. apply constructs_intro; try done.
  by rewrite Hlen.
Qed.

(** X5. The copy constructor, for a source that satisfies the invariant:
    the new array holds copies of the source's elements in a block of its
    own, distinct from the source's, and the source still holds what it
    held.  Copying an array in the empty/uninitialized state gives an
    array of size zero whose storage pointer is not null. *)
Theorem copy_construction (w : W) (that : nat) (o : Self) (vs ys : list T) :
  1 <= sizeof -> wf_heap w ->
  objects w !! that = Some o -> holds w o vs ->
  Z.of_nat (length vs) <= AlignedAllocator.max_size T ->
  Z.of_nat (length vs) * sizeof <= heap_free w ->
  copied_from (ctor_calls w) vs ys ->
  constructs w (ctor_copy that w) ys (length ys) /\
  forall o' w', ctor_copy that w = Ret o' w' ->
                mem_ o' <> mem_ o /\ holds w' o vs.
Proof.
  intros Hs Hwf Ho Hvs Hmax Hfree Hcopy.
  assert (Hspan : spans (PtrIt (mem_ o) 0) (PtrIt (mem_ o) (Z.to_nat (n_ o)))
                        vs).
  { simpl. split; [done|].
    destruct Hvs as [(_ & -> & ->) | (_ & -> & _)]; [done|].
    by rewrite Nat2Z.id. }
  assert (Hrun : ctor_copy that w
                 = ctor_range (PtrIt (mem_ o) 0)
                              (PtrIt (mem_ o) (Z.to_nat (n_ o))) (alloc_ o) w).
  { unfold ctor_copy, ctor_copy_with, begin_, end_.
    rewrite (bind_ret_eq _ _ _ _ _ (get_eq _ _ _ Ho)).
    unfold bind at 1. unfold bind at 1. rewrite (get_eq _ _ _ Ho).
    unfold ret at 1. unfold bind at 1. unfold bind at 1.
    rewrite (get_eq _ _ _ Ho). done. }
  rewrite Hrun.
  destruct (AlignedAllocatorFacts.fresh_address (alignment_v := alignment_v)
              w Hwf) as [Hnz Hfresh].
  assert (Hlen : length ys = length vs) by apply Hcopy.
  assert (Hread : vs <> [] -> readable w (PtrIt (mem_ o) 0) vs).
  { intros Hne.
    destruct Hvs as [(_ & _ & ->) | (_ & _ & b & Hb & _ & _ & Hsl)]; [done|].
    exists b. split; [done|]. intros j v Hj. simpl.
    by rewrite Hsl, list_lookup_fmap, Hj. }
  destruct w as [bs nx fr cc dc os].
  simpl in Hnz, Hfresh, Hfree, Hcopy, Ho.
  rewrite (ctor_range_runs (alloc_ o) (PtrIt (mem_ o) 0)
             (PtrIt (mem_ o) (Z.to_nat (n_ o))) vs ys bs nx fr cc dc os)
    by done.
  split.
  - apply constructs_intro; try done. by rewrite Hlen.
  - intros o' w' [= <- <-]. simpl.
    assert (Hdiff : align_up nx (requested_alignment
                       (AlignedAllocator.new_form alignment_v)) <> mem_ o).
    { destruct Hvs as [(Hz & _) | (_ & _ & b & Hb & _)];
        simpl in *; congruence. }
    split; [done|].
    eapply holds_frame; [|exact Hvs]. intros _. simpl.
    by apply lookup_insert_ne.
Qed.

End Construction.

Section Lifetime.
Context `{PlatformOk} {T : Type} `{Element T} {alignment_v : Z}.

Local Abbreviation A := (AlignedAllocator.t T alignment_v).
Local Abbreviation Self := (DynArray.t T alignment_v).
Local Abbreviation W := (World T Self).


(** X6. The destructor of an array that satisfies the invariant destroys
    each of its elements once, gives its block back to the allocator and
    touches no other block; on an array in the empty/uninitialized state
    (such as a moved-from one) it destroys and releases nothing. *)
Theorem destruction (w : W) (this : nat) (o : Self) (vs : list T) :
  objects w !! this = Some o -> holds w o vs ->
  exists w',
    destructor this w = Ret tt w' /\
    objects w' = delete this (objects w) /\
    heap_blocks w' = (if decide (mem_ o = 0) then heap_blocks w
                      else delete (mem_ o) (heap_blocks w)) /\
    heap_free w' = (if decide (mem_ o = 0) then heap_free w
                    else heap_free w + wrap (n_ o * sizeof)) /\
    ctor_calls w' = ctor_calls w /\
    dtor_calls w' = (dtor_calls w + length vs)%nat.
Proof.
  intros Ho Hvs. unfold destructor.
  destruct (decide (mem_ o = 0)) as [Hz | Hnz].
  - rewrite (bind_ret_eq _ _ _ _ _ (deallocate_null _ _ _ Ho Hz)).
    eexists. split; [reflexivity|].
    destruct Hvs as [(_ & _ & ->) | [Hnz _]]; [|done].
    simpl. repeat split; lia.
  - destruct w as [bs nx fr cc dc os]. simpl in *.
    rewrite (bind_ret_eq _ _ _ _ _
               (deallocate_owned _ _ _ _ _ _ _ _ _ Ho Hnz Hvs)).
    eexists. split; [reflexivity|]. done.
Qed.

(** X7. Construction and destruction balance: constructing an array of [n]
    elements and destroying it runs [n] constructors and [n] destructors
    of the element type and leaves the blocks, the free memory and the
    objects of the store exactly as they were. *)
Theorem construction_destruction_balance (w : W) (this : nat) (a : A)
    (args : Args) (ys : list T) :
  1 <= sizeof -> wf_heap w -> objects w !! this = None ->
  Z.of_nat (length ys) <= AlignedAllocator.max_size T ->
  Z.of_nat (length ys) * sizeof <= heap_free w ->
  made_by args (ctor_calls w) ys ->
  exists w',
    (construct_object this (ctor_sized (Z.of_nat (length ys)) a args) ;;
     destructor this) w = Ret tt w' /\
    heap_blocks w' = heap_blocks w /\
    heap_free w' = heap_free w /\
    objects w' = objects w /\
    ctor_calls w' = (ctor_calls w + length ys)%nat /\
    dtor_calls w' = (dtor_calls w + length ys)%nat.
Proof.
  intros Hs Hwf Hnew Hmax Hfree Hmade.
  destruct (AlignedAllocatorFacts.fresh_address (alignment_v := alignment_v)
              w Hwf) as [Hnz Hfresh].
  destruct w as [bs nx fr cc dc os]. simpl in *.
  set (form := AlignedAllocator.new_form alignment_v) in *.
  set (p := align_up nx (requested_alignment form)) in *.
  set (n := Z.of_nat (length ys)) in *.
  assert (Hwrap : wrap (n * sizeof) = n * sizeof).
  { apply (AlignedAllocatorFacts.allocate_in_range a n
             (mkWorld bs nx fr cc dc os)); lia. }
  unfold construct_object.
  unfold bind at 1. unfold bind at 1.
  rewrite (ctor_sized_runs a args ys bs nx fr cc dc os) by done.
  fold form p n. rewrite put_eq. unfold with_objects. simpl.
  unfold destructor.
  erewrite bind_ret_eq; cycle 1.
  { apply (deallocate_owned this (mk a p n) ys).
    - apply lookup_insert_eq.
    - done.
    - right. simpl. repeat split; try done.
      eexists. split; [apply lookup_insert_eq|]. simpl. by rewrite Hwrap. }
  eexists. split; [reflexivity|]. simpl.
  rewrite !delete_insert_eq, !delete_id by done.
  simpl. rewrite Hwrap. repeat split; lia.
Qed.







(** X10. Self move-assignment [a = std::move(a)] of an array that
    satisfies the invariant returns normally and leaves the array in the
    empty/uninitialized state: its elements have been destroyed and its
    block released. *)
Theorem self_move_assignment (w : W) (this : nat) (o : Self) (vs : list T) :
  objects w !! this = Some o -> holds w o vs ->
  exists w',
    move_assign this this w = Ret tt w' /\
    moved_from w' this /\
    (forall q, q <> this -> (objects w' !! q) = (objects w !! q)) /\
    heap_blocks w' = (if decide (mem_ o = 0) then heap_blocks w
                      else delete (mem_ o) (heap_blocks w)) /\
    ctor_calls w' = ctor_calls w /\
    dtor_calls w' = (dtor_calls w + length vs)%nat.
Proof.
  intros Ho Hvs.
  destruct (deallocate_spec _ _ _ _ Ho Hvs)
    as (wd & Hd & Hobjs & Hblocks & _ & _ & Hcc & Hdc).
  destruct wd as [bs nx fr cc dc os]. simpl in *. subst.
  unfold move_assign. rewrite (bind_ret_eq _ _ _ _ _ Hd).
  eexists. split.
  { unfold set_alloc_, set_mem_, set_n_.
    unfold bind, get, put, ret, with_objects. simpl.
    repeat (rewrite ?Ho, ?lookup_insert_eq; simpl). reflexivity. }
  simpl. repeat split; try done.
  - eexists. split; [apply lookup_insert_eq|]. done.
  - intros q Hq. by rewrite !lookup_insert_ne.
Qed.

End Lifetime.

Section Reading.
Context `{Platform} {T : Type} `{Element T} `{Assignable T}
        `{EqualityComparable T} {alignment_v : Z}.

Local Abbreviation Self := (DynArray.t T alignment_v).
Local Abbreviation W := (World T Self).

Lemma holds_length (w : W) (o : Self) (vs : list T) :
  holds w o vs -> n_ o = Z.of_nat (length vs).
Proof. by intros [(_ & -> & ->) | (_ & -> & _)]. Qed.

Lemma holds_load (w : W) (o : Self) (vs : list T) (i : nat) (v : T) :
  holds w o vs -> vs !! i = Some v -> load (mem_ o) i w = Ret v w.
Proof.
  intros [(_ & _ & ->) | (_ & _ & b & Hb & _ & _ & Hsl)] Hi; [done|].
  unfold load. by rewrite Hb, Hsl, list_lookup_fmap, Hi.
Qed.

Lemma holds_readable (w : W) (o : Self) (vs : list T) :
  holds w o vs -> vs <> [] -> readable w (PtrIt (mem_ o) 0) vs.
Proof.
  intros [(_ & _ & ->) | (_ & _ & b & Hb & _ & _ & Hsl)] Hne; [done|].
  exists b. split; [done|]. intros j v Hj. simpl.
  by rewrite Hsl, list_lookup_fmap, Hj.
Qed.

(** X11. [front()] and [back()] on an array that satisfies the invariant:
    when it has no elements both throw [std::domain_error("uninitialized
    DynArray")], also when the array was constructed with size zero and has
    storage; otherwise they refer to the first and to the last element.
    The store is left as it is. *)
Theorem front_and_back (w : W) (this : nat) (o : Self) (vs : list T) :
  objects w !! this = Some o -> holds w o vs ->
  (vs = [] ->
     front this w = Throw (domain_error "uninitialized DynArray") w /\
     back this w = Throw (domain_error "uninitialized DynArray") w) /\
  (forall x, head vs = Some x ->
     (let! r := front this in deref r) w = Ret x w) /\
  (forall x, last vs = Some x ->
     (let! r := back this in deref r) w = Ret x w).
Proof.
  intros Ho Hvs. pose proof (holds_length _ _ _ Hvs) as Hn.
  assert (Hempty : empty this w = Ret (n_ o =? 0) w).
  { unfold empty. by rewrite (bind_ret_eq _ _ _ _ _ (get_eq _ _ _ Ho)). }
  split; [|split].
  - intros ->. simpl in Hn. unfold front, back.
    rewrite !(bind_ret_eq _ _ _ _ _ Hempty), Hn. done.
  - intros x Hx. destruct vs as [|v vs]; [done|]. injection Hx as ->.
    unfold front. unfold bind at 1.
    rewrite (bind_ret_eq _ _ _ _ _ Hempty).
    destruct (n_ o =? 0) eqn:Hz; [apply Z.eqb_eq in Hz; simpl in Hn; lia|].
    rewrite (bind_ret_eq _ _ _ _ _ (get_eq _ _ _ Ho)). unfold ret. simpl.
    by apply (holds_load w o (x :: vs) 0).
  - intros x Hx. destruct vs as [|v vs]; [done|].
    unfold back. unfold bind at 1.
    rewrite (bind_ret_eq _ _ _ _ _ Hempty).
    destruct (n_ o =? 0) eqn:Hz; [apply Z.eqb_eq in Hz; simpl in Hn; lia|].
    rewrite (bind_ret_eq _ _ _ _ _ (get_eq _ _ _ Ho)). unfold ret. simpl.
    apply (holds_load w o (v :: vs)); [done|].
    rewrite last_lookup in Hx. rewrite <- Hx. f_equal. rewrite Hn.
    simpl length. lia.
Qed.

(** X12. Reading through the reference that [operator[]] or [at] returns
    for an index below the size gives the element at that index. *)
Theorem indexed_read (w : W) (this : nat) (o : Self) (vs : list T)
    (i : nat) (v : T) :
  objects w !! this = Some o -> holds w o vs -> vs !! i = Some v ->
  (let! r := op_index this (Z.of_nat i) in deref r) w = Ret v w /\
  (let! r := at_ this (Z.of_nat i) in deref r) w = Ret v w.
Proof.
  intros Ho Hvs Hi. pose proof (holds_length _ _ _ Hvs) as Hn.
  assert (Hlt : (i < length vs)%nat) by (by eapply lookup_lt_Some).
  assert (Hm : mem_ o <> 0).
  { destruct Hvs as [(_ & _ & ->) | (Hm & _)]; [simpl in Hlt; lia | done]. }
  assert (Hrun : op_index this (Z.of_nat i) w
                 = Ret (PtrIt (mem_ o) i) w).
  { unfold op_index.
    rewrite (bind_ret_eq _ _ _ _ _
               (check_range_within this o (Z.of_nat i) w Ho Hm ltac:(lia))).
    rewrite (bind_ret_eq _ _ _ _ _ (get_eq _ _ _ Ho)).
    unfold ret. by rewrite Nat2Z.id. }
  assert (Hrun' : at_ this (Z.of_nat i) w = Ret (PtrIt (mem_ o) i) w)
    by exact Hrun.
  rewrite (bind_ret_eq _ _ _ _ _ Hrun), (bind_ret_eq _ _ _ _ _ Hrun').
  simpl.
  split; by apply (holds_load w o vs i).
Qed.

Lemma read_loop_readable (w : W) :
  forall (vs : list T) (first : iterator T),
    (vs <> [] -> readable w first vs) ->
    read_loop first (length vs) w = Ret vs w.
Proof.
  induction vs as [|v vs IH]; intros first Hread; [done|].
  specialize (Hread ltac:(done)).
  apply readable_next in Hread as [Hderef Hread].
  simpl. rewrite (bind_ret_eq _ _ _ _ _ Hderef).
  by rewrite (bind_ret_eq _ _ _ _ _ (IH (next first) (fun _ => Hread))).
Qed.

Lemma begin_eq (this : nat) (o : Self) (w : W) :
  objects w !! this = Some o -> begin_ this w = Ret (PtrIt (mem_ o) 0) w.
Proof.
  intros Ho. unfold begin_.
  by rewrite (bind_ret_eq _ _ _ _ _ (get_eq _ _ _ Ho)).
Qed.

Lemma end_eq (this : nat) (o : Self) (w : W) :
  objects w !! this = Some o ->
  end_ this w = Ret (PtrIt (mem_ o) (Z.to_nat (n_ o))) w.
Proof.
  intros Ho. unfold end_.
  by rewrite (bind_ret_eq _ _ _ _ _ (get_eq _ _ _ Ho)).
Qed.

Lemma holds_spans (w : W) (o : Self) (vs : list T) :
  holds w o vs ->
  spans (PtrIt (mem_ o) 0) (PtrIt (mem_ o) (Z.to_nat (n_ o))) vs.
Proof.
  intros Hvs. simpl. split; [done|].
  by rewrite (holds_length _ _ _ Hvs), Nat2Z.id.
Qed.

(** X13. Walking from [begin()] to [end()] (or from [cbegin()] to
    [cend()]) reads exactly the elements of the array, first to last, and
    nothing on an array without elements; [data()] is where [begin()]
    points. *)
Theorem forward_traversal (w : W) (this : nat) (o : Self) (vs : list T) :
  objects w !! this = Some o -> holds w o vs ->
  (let! b := begin_ this in let! e := end_ this in traverse b e) w
  = Ret vs w /\
  (let! b := cbegin this in let! e := cend this in traverse b e) w
  = Ret vs w /\
  exists p, data this w = Ret p w /\ begin_ this w = Ret (PtrIt p 0) w.
Proof.
  intros Ho Hvs.
  assert (Hwalk : (let! b := begin_ this in
                   let! e := end_ this in traverse b e) w = Ret vs w).
  { rewrite (bind_ret_eq _ _ _ _ _ (begin_eq _ _ _ Ho)).
    rewrite (bind_ret_eq _ _ _ _ _ (end_eq _ _ _ Ho)).
    unfold traverse.
    rewrite (bind_ret_eq _ _ _ _ _
               (distance_spans (PtrIt (mem_ o) 0)
                  (PtrIt (mem_ o) (Z.to_nat (n_ o))) vs w
                  (holds_spans _ _ _ Hvs))).
    rewrite Nat2Z.id. apply read_loop_readable.
    by apply holds_readable. }
  split; [exact Hwalk|]. split; [exact Hwalk|].
  exists (mem_ o). split; [|by apply begin_eq].
  unfold data. by rewrite (bind_ret_eq _ _ _ _ _ (get_eq _ _ _ Ho)).
Qed.

Lemma rread_loop_prefix (w : W) (base : Z) (vs : list T) :
  (forall j v, vs !! j = Some v -> load base j w = Ret v w) ->
  forall k, (k <= length vs)%nat ->
    rread_loop (RevIt (PtrIt base k)) k w = Ret (rev (take k vs)) w.
Proof.
  intros Hload. induction k as [|k IH]; intros Hk; [done|].
  destruct (lookup_lt_is_Some_2 vs k ltac:(lia)) as [v Hv].
  cbn [rread_loop rderef rnext pred].
  rewrite (bind_ret_eq _ _ _ _ _ (Hload k v Hv)).
  rewrite (bind_ret_eq _ _ _ _ _ (IH ltac:(lia))).
  unfold ret. rewrite (take_S_r vs k v Hv), rev_app_distr. done.
Qed.

(** X14. Walking from [rbegin()] to [rend()] reads exactly the elements of
    the array, last to first. *)
Theorem reverse_traversal (w : W) (this : nat) (o : Self) (vs : list T) :
  objects w !! this = Some o -> holds w o vs ->
  (let! b := rbegin this in let! e := rend this in rtraverse b e) w
  = Ret (rev vs) w /\
  (let! b := crbegin this in let! e := crend this in rtraverse b e) w
  = Ret (rev vs) w.
Proof.
  intros Ho Hvs.
  assert (Hwalk : (let! b := rbegin this in
                   let! e := rend this in rtraverse b e) w
                  = Ret (rev vs) w).
  { unfold rbegin, rend.
    rewrite (bind_ret_eq _ _ _ (RevIt (PtrIt (mem_ o) (Z.to_nat (n_ o)))) w)
      by (by rewrite (bind_ret_eq _ _ _ _ _ (end_eq _ _ _ Ho))).
    rewrite (bind_ret_eq _ _ _ (RevIt (PtrIt (mem_ o) 0)) w)
      by (by rewrite (bind_ret_eq _ _ _ _ _ (begin_eq _ _ _ Ho))).
    unfold rtraverse, rdistance.
    rewrite (bind_ret_eq _ _ _ _ _
               (distance_spans (PtrIt (mem_ o) 0)
                  (PtrIt (mem_ o) (Z.to_nat (n_ o))) vs w
                  (holds_spans _ _ _ Hvs))).
    rewrite (holds_length _ _ _ Hvs), !Nat2Z.id.
    rewrite (rread_loop_prefix w (mem_ o) vs);
      [|intros j v Hj; by apply (holds_load w o vs j v)|done].
    by rewrite firstn_all. }
  split; exact Hwalk.
Qed.

End Reading.

Section Writing.
Context `{Platform} {T : Type} `{Element T} `{Assignable T}
        `{EqualityComparable T} {alignment_v : Z}.

Local Abbreviation Self := (DynArray.t T alignment_v).
Local Abbreviation W := (World T Self).

Lemma assigned_from_tail (v x y : T) (vs ys : list T) :
  assigned_from v (x :: vs) (y :: ys) ->
  assign x v = Val y /\ assigned_from v vs ys.
Proof.
  intros [Hlen Hasg]. split; [exact (Hasg 0%nat x y eq_refl eq_refl)|].
  split; [simpl in Hlen; lia|]. intros j x' y' Hx Hy.
  exact (Hasg (S j) x' y' Hx Hy).
Qed.

(** The loop of [std::fill] over the elements [rest] that follow [done_],
    when every assignment returns. *)
Lemma fill_loop (p bytes : Z) (al : option Z) (val : iterator T) (v : T) :
  forall (rest out done_ : list T) bs nx fr cc dc (os : gmap nat Self),
    bs !! p = Some (mkBlock bytes al ((Some <$> done_) ++ (Some <$> rest))) ->
    readable (mkWorld bs nx fr cc dc os) val [v] ->
    ~ points_into val p ->
    assigned_from v rest out ->
    for_loop (length done_) (length rest)
             (fun i => let! x := deref val in assign_at p i x)
             (mkWorld bs nx fr cc dc os)
    = Ret tt (mkWorld (<[p := mkBlock bytes al (Some <$> (done_ ++ out))]> bs)
                      nx fr cc dc os).
Proof.
  induction rest as [|x rest IH];
    intros out done_ bs nx fr cc dc os Hp Hval Hout Hasg.
  - destruct Hasg as [Hlen _]. destruct out; [|done].
    simpl. unfold ret. rewrite !app_nil_r in *. by rewrite insert_id.
  - destruct out as [|y out]; [by destruct Hasg|].
    apply assigned_from_tail in Hasg as [Hy Hasg].
    pose proof (readable_next _ _ _ _ Hval) as [Hderef _].
    set (bs' := <[p := mkBlock bytes al
                        ((Some <$> (done_ ++ [y])) ++ (Some <$> rest))]> bs).
    assert (Hstep :
      (let! x0 := deref val in assign_at p (length done_) x0)
        (mkWorld bs nx fr cc dc os)
      = Ret tt (mkWorld bs' nx fr cc dc os)).
    { rewrite (bind_ret_eq _ _ _ _ _ Hderef).
      unfold assign_at. simpl. rewrite Hp. simpl.
      rewrite lookup_app_r by (rewrite length_fmap; lia).
      rewrite length_fmap, Nat.sub_diag. simpl. rewrite Hy.
      unfold with_blocks. simpl. f_equal. f_equal. subst bs'. do 2 f_equal.
      rewrite insert_app_r_alt by (rewrite length_fmap; lia).
      rewrite length_fmap, Nat.sub_diag. simpl.
      rewrite fmap_app. simpl. by rewrite <- app_assoc. }
    cbn [for_loop length]. rewrite (bind_ret_eq _ _ _ _ _ Hstep).
    specialize (IH out (done_ ++ [y]) bs' nx fr cc dc os).
    rewrite length_app in IH. simpl in IH.
    replace (length done_ + 1)%nat with (S (length done_)) in IH by lia.
    rewrite IH; subst bs'.
    + rewrite insert_insert_eq, <- app_assoc. done.
    + apply lookup_insert_eq.
    + eapply (readable_frame _ _ _ _ p); [done| |exact Hval].
      intros q Hq. simpl. by apply lookup_insert_ne.
    + done.
    + done.
Qed.

(** X15. [fill(val)] on an array that satisfies the invariant, for a value
    that does not live in the array itself, when every assignment returns:
    each element is assigned from the value, in index order, by the copy
    assignment operator of the element type; the array keeps its block and
    its size, no element is constructed or destroyed, and nothing else in
    the store changes.  On an array without elements it does nothing. *)
Theorem fill_assigns (w : W) (this : nat) (o : Self) (vs ys : list T)
    (val : iterator T) (v : T) :
  objects w !! this = Some o -> holds w o vs ->
  readable w val [v] -> ~ points_into val (mem_ o) ->
  assigned_from v vs ys ->
  exists w',
    fill this val w = Ret tt w' /\
    holds w' o ys /\
    objects w' = objects w /\
    (forall q, q <> mem_ o -> (heap_blocks w' !! q) = (heap_blocks w !! q)) /\
    heap_free w' = heap_free w /\
    ctor_calls w' = ctor_calls w /\ dtor_calls w' = dtor_calls w.
Proof.
  intros Ho Hvs Hval Hout Hasg.
  assert (Hlen : length ys = length vs) by apply Hasg.
  unfold fill.
  rewrite (bind_ret_eq _ _ _ _ _ (begin_eq _ _ _ Ho)).
  rewrite (bind_ret_eq _ _ _ _ _ (end_eq _ _ _ Ho)).
  unfold std_fill.
  rewrite (bind_ret_eq _ _ _ _ _
             (distance_spans (PtrIt (mem_ o) 0)
                (PtrIt (mem_ o) (Z.to_nat (n_ o))) vs w
                (holds_spans _ _ _ Hvs))).
  rewrite Nat2Z.id.
  destruct Hvs as [(Hm & Hn & ->) | (Hm & Hn & b & Hb & Hbytes & Hal & Hsl)].
  - destruct ys; [|done]. exists w. simpl. repeat split; try done.
    by left.
  - destruct w as [bs nx fr cc dc os]. destruct b as [bytes al slots].
    simpl in *. subst slots.
    pose proof (fill_loop (mem_ o) bytes al val v vs ys [] bs nx fr cc dc os
                  Hb Hval Hout Hasg) as Hloop.
    simpl in Hloop.
    eexists. split; [exact Hloop|]. simpl. repeat split; try done.
    + right. repeat split; try done; [by rewrite Hlen|].
      eexists. split; [apply lookup_insert_eq|]. done.
    + intros q Hq. by apply lookup_insert_ne.
Qed.

Lemma all_equal_cons (x y : T) (vs ws : list T) :
  all_equal (x :: vs) (y :: ws) <-> elem_eq x y = true /\ all_equal vs ws.
Proof.
  split.
  - intros Hall. split; [exact (Hall 0%nat x y eq_refl eq_refl)|].
    intros j x' y' Hx Hy. exact (Hall (S j) x' y' Hx Hy).
  - intros [Hxy Hall] [|j] x' y' Hx Hy.
    + simpl in Hx, Hy. by injection Hx as <-; injection Hy as <-.
    + exact (Hall j x' y' Hx Hy).
Qed.

(** The loop of [std::equal] over two readable ranges of one length. *)
Lemma equal_loop_spec (w : W) :
  forall (vs ws : list T) (it1 it2 : iterator T),
    length vs = length ws ->
    (vs <> [] -> readable w it1 vs) -> (ws <> [] -> readable w it2 ws) ->
    exists b, equal_loop it1 it2 (length vs) w = Ret b w /\
              (b = true <-> all_equal vs ws).
Proof.
  induction vs as [|x vs IH]; intros ws it1 it2 Hlen Hr1 Hr2.
  - destruct ws; [|done]. exists true. split; [done|]. split; [|done].
    intros _ j x y Hx. done.
  - destruct ws as [|y ws]; [done|].
    specialize (Hr1 ltac:(done)). specialize (Hr2 ltac:(done)).
    apply readable_next in Hr1 as [Hd1 Hr1].
    apply readable_next in Hr2 as [Hd2 Hr2].
    cbn [equal_loop length].
    rewrite (bind_ret_eq _ _ _ _ _ Hd1), (bind_ret_eq _ _ _ _ _ Hd2).
    destruct (elem_eq x y) eqn:Hxy.
    + destruct (IH ws (next it1) (next it2)) as (b & Hrun & Hb);
        [simpl in Hlen; lia | done | done |].
      exists b. split; [done|]. rewrite all_equal_cons. tauto.
    + exists false. split; [done|]. rewrite all_equal_cons.
      split; [done|]. intros [Heq _]. congruence.
Qed.

(** X16. [operator==] on two arrays that satisfy the invariant is [true]
    exactly when they have the same size and the elements at every index
    compare equal with [operator==] of the element type; the allocators
    and the storage pointers play no part, so an array in the
    empty/uninitialized state equals every array without elements.
    [operator!=] is its negation, and neither changes the store. *)
Theorem equality (w : W) (lhs rhs : nat) (ol or : Self) (vs ws : list T) :
  objects w !! lhs = Some ol -> objects w !! rhs = Some or ->
  holds w ol vs -> holds w or ws ->
  exists b,
    op_eq lhs rhs w = Ret b w /\
    op_ne lhs rhs w = Ret (negb b) w /\
    (b = true <-> length vs = length ws /\ all_equal vs ws).
Proof.
  intros Hl Hr Hvs Hws.
  assert (Hrun : exists b, op_eq lhs rhs w = Ret b w /\
                   (b = true <-> length vs = length ws /\ all_equal vs ws)).
  { unfold op_eq.
    rewrite (bind_ret_eq _ _ _ _ _ (begin_eq _ _ _ Hl)).
    rewrite (bind_ret_eq _ _ _ _ _ (end_eq _ _ _ Hl)).
    rewrite (bind_ret_eq _ _ _ _ _ (begin_eq _ _ _ Hr)).
    rewrite (bind_ret_eq _ _ _ _ _ (end_eq _ _ _ Hr)).
    unfold std_equal.
    rewrite (bind_ret_eq _ _ _ _ _
               (distance_spans (PtrIt (mem_ ol) 0)
                  (PtrIt (mem_ ol) (Z.to_nat (n_ ol))) vs w
                  (holds_spans _ _ _ Hvs))).
    rewrite (bind_ret_eq _ _ _ _ _
               (distance_spans (PtrIt (mem_ or) 0)
                  (PtrIt (mem_ or) (Z.to_nat (n_ or))) ws w
                  (holds_spans _ _ _ Hws))).
    destruct (Z.of_nat (length vs) =? Z.of_nat (length ws)) eqn:Hlen.
    - apply Z.eqb_eq in Hlen. apply Nat2Z.inj in Hlen. rewrite Nat2Z.id.
      destruct (equal_loop_spec w vs ws (PtrIt (mem_ ol) 0)
                  (PtrIt (mem_ or) 0) Hlen)
        as (b & Hloop & Hb);
        [by apply holds_readable | by apply holds_readable |].
      exists b. split; [done|]. tauto.
    - apply Z.eqb_neq in Hlen. exists false. split; [done|].
      split; [done|]. intros [Heq _]. congruence. }
  destruct Hrun as (b & Hrun & Hb). exists b.
  split; [done|]. split; [|done].
  unfold op_ne. by rewrite (bind_ret_eq _ _ _ _ _ Hrun).
Qed.


End Writing.

End DynArrayRestFacts.

(** ** Allocation seen from the callers *)

Module AllocationFacts.
Import DynArray DynArraySpec DynArrayFacts.

Section Allocation.
Context `{PlatformOk} {T : Type} `{Element T} {Obj : Type} {alignment_v : Z}.

Local Abbreviation A := (AlignedAllocator.t T alignment_v).
Local Abbreviation W := (World T Obj).

(** [allocate] refuses a count that overflows and a request the memory
    system cannot serve, and leaves the store as it was. *)
Lemma allocate_refused (self : A) (n : Z) (w : W) :
  1 <= sizeof -> 0 <= n ->
  AlignedAllocator.max_size T < n \/ heap_free w < n * sizeof ->
  AlignedAllocator.allocate self n w = Throw bad_alloc w.
Proof.
  intros Hs Hn Hwhy.
  destruct (Z.lt_ge_cases (AlignedAllocator.max_size T) n) as [Hbig | Hfits].
  - by apply AlignedAllocatorFacts.allocate_too_large.
  - destruct Hwhy as [Hbig | Hfull]; [lia|].
    destruct (AlignedAllocatorFacts.allocate_in_range self n w Hs Hn Hfits)
      as (_ & _ & ->).
    unfold operator_new. apply Z.ltb_lt in Hfull. by rewrite Hfull.
Qed.

(** X18. Allocating and deallocating is a round trip: whenever
    [allocate(n)] returns a pointer, [deallocate] of that pointer with the
    same [n] returns normally and the blocks, the free memory and the
    objects of the store are what they were before the allocation. *)
Theorem allocate_deallocate_round_trip (self : A) (n : Z) (w w1 : W)
    (p : Z) :
  1 <= sizeof -> wf_heap w -> 0 <= n ->
  AlignedAllocator.allocate self n w = Ret p w1 ->
  exists w2,
    AlignedAllocator.deallocate self p n w1 = Ret tt w2 /\
    heap_blocks w2 = heap_blocks w /\
    heap_free w2 = heap_free w /\
    objects w2 = objects w /\
    ctor_calls w2 = ctor_calls w /\ dtor_calls w2 = dtor_calls w.
Proof.
  intros Hs Hwf Hn Halloc.
  destruct (Z.lt_ge_cases (AlignedAllocator.max_size T) n) as [Hbig | Hfits].
  { by rewrite allocate_refused in Halloc by auto. }
  destruct (Z.lt_ge_cases (heap_free w) (n * sizeof)) as [Hfull | Hfree].
  { by rewrite allocate_refused in Halloc by auto. }
  destruct (AlignedAllocatorFacts.fresh_address (alignment_v := alignment_v)
              w Hwf) as [Hnz Hfresh].
  destruct (AlignedAllocatorFacts.allocate_in_range self n w Hs Hn Hfits)
    as (_ & Hwrap & _).
  destruct w as [bs nx fr cc dc os]. simpl in *.
  rewrite AlignedAllocatorFacts.allocate_ok in Halloc by done.
  injection Halloc as <- <-.
  unfold AlignedAllocator.deallocate. rewrite Hwrap.
  set (form := AlignedAllocator.new_form alignment_v) in *.
  set (p := align_up nx (requested_alignment form)) in *.
  assert (Hdel :
    operator_delete p (n * sizeof) form
      (mkWorld (<[p := mkBlock (n * sizeof) form
                         (replicate (Z.to_nat n) None)]> bs)
               (p + Z.max (n * sizeof) 1) (fr - n * sizeof) cc dc os)
    = Ret tt (mkWorld bs (p + Z.max (n * sizeof) 1) fr cc dc os)).
  { unfold operator_delete. apply Z.eqb_neq in Hnz. rewrite Hnz. simpl.
    rewrite lookup_insert_eq. simpl.
    rewrite Z.eqb_refl, same_alignment_refl.
    simpl. unfold with_heap. simpl. rewrite delete_insert_eq.
    rewrite delete_id by done. f_equal. f_equal. lia. }
  exists (mkWorld bs (p + Z.max (n * sizeof) 1) fr cc dc os).
  split; [|done].
  unfold form, AlignedAllocator.new_form in *.
  by destruct (alignment_v <=? STDCPP_DEFAULT_NEW_ALIGNMENT).
Qed.

End Allocation.

Section Constructors.
Context `{PlatformOk} {T : Type} `{Element T} {alignment_v : Z}.

Local Abbreviation A := (AlignedAllocator.t T alignment_v).
Local Abbreviation Self := (DynArray.t T alignment_v).
Local Abbreviation W := (World T Self).

(** X19. Out of memory in a constructor: when the count overflows the
    byte size or the memory system cannot serve the request, each of the
    allocating constructors throws [std::bad_alloc] before any element is
    constructed, and the store is exactly as it was. *)
Theorem construction_out_of_memory (w : W) (a : A) (n : Z) (args : Args)
    (v : T) (first last : iterator T) (vs : list T) :
  1 <= sizeof -> n = Z.of_nat (length vs) -> spans first last vs ->
  AlignedAllocator.max_size T < n \/ heap_free w < n * sizeof ->
  ctor_sized n a args w = Throw bad_alloc w /\
  ctor_fill n v a w = Throw bad_alloc w /\
  ctor_range first last a w = Throw bad_alloc w /\
  ctor_init_list vs a w = Throw bad_alloc w.
Proof.
  intros Hs -> Hspan Hwhy.
  pose proof (allocate_refused a (Z.of_nat (length vs)) w Hs ltac:(lia) Hwhy)
    as Hthrow.
  unfold ctor_sized, ctor_fill, ctor_range, ctor_init_list.
  rewrite (bind_ret_eq _ _ _ _ _ (distance_spans _ _ _ _ Hspan)).
  by rewrite !(bind_throw_eq _ _ _ _ _ Hthrow).
Qed.

End Constructors.

End AllocationFacts.

(** ** The remaining members, run *)

Module ScenarioRestFacts.
Import DynArray DynArraySpec DynArrayRest DynArrayRestSpec.
Import Scenario ScenarioRest ScenarioFacts.

#[local] Existing Instance fourth_throws.

Lemma wf_heap_by_check {T Obj : Type} (w : World T Obj) :
  0 < heap_next w ->
  map_Forall (fun p _ => 0 < p < heap_next w) (heap_blocks w) ->
  wf_heap w.
Proof. intros Hnext Hall. split; [done|]. intros p b Hp. by apply (Hall p b). Qed.

Lemma wf_two_arrays : wf_heap two_arrays.
Proof.
  apply wf_heap_by_check; [done|].
  intros p b Hp. unfold two_arrays in Hp. simpl in Hp.
  apply lookup_insert_Some in Hp as [[<- _] | [_ Hp]]; [done|].
  apply lookup_insert_Some in Hp as [[<- _] | [_ Hp]]; [done|].
  by rewrite lookup_empty in Hp.
Qed.

Lemma made_by_two_arrays (v : Z) (ys : list Z) :
  Forall (fun y => y = v) ys -> (length ys <= 2)%nat ->
  made_by (Some v) (ctor_calls two_arrays) ys.
Proof.
  intros Hall Hlen j y Hj.
  assert (y = v) as -> by (by eapply (Forall_lookup_1 _ ys j y) in Hall).
  assert (j < 2)%nat by (apply lookup_lt_Some in Hj; lia).
  destruct j as [|[|j]]; [reflexivity | reflexivity | lia].
Qed.

Lemma copied_same (cc : nat) (vs : list Z) :
  Forall (fun x => x <> 13) vs -> copied_from cc vs vs.
Proof.
  intros Hall. split; [done|]. intros j x y Hx Hy.
  assert (y = x) as -> by congruence.
  eapply (Forall_lookup_1 _ vs j x) in Hall; [|done].
  simpl. by destruct (Z.eqb_spec x 13).
Qed.

(** A sized construction of two elements next to two existing arrays. *)
Lemma sized_construction_witness :
  constructs two_arrays (ctor_sized 2 a16 (Some 9) two_arrays) [9; 9] 2.
Proof.
  apply (DynArrayRestFacts.sized_construction (H1 := fourth_throws) two_arrays a16 (Some 9) [9; 9]).
  - exact sizeof_probe.
  - exact wf_two_arrays.
  - vm_compute. discriminate.
  - vm_compute. discriminate.
  - apply made_by_two_arrays; [by repeat constructor | simpl; lia].
Defined.

Lemma fill_construction_witness :
  constructs fresh_world (ctor_fill 2 7 a16 fresh_world) [7; 7] 2.
Proof.
  apply (DynArrayRestFacts.fill_construction fresh_world a16 7 [7; 7]).
  - exact sizeof_probe.
  - exact wf_fresh_world.
  - vm_compute. discriminate.
  - vm_compute. discriminate.
  - apply (copied_same _ [7; 7]). by repeat constructor.
Defined.

Lemma range_construction_witness :
  constructs fresh_world
    (ctor_range (SeqIt [7; 8; 9]) (SeqIt []) a16 fresh_world) [7; 8; 9] 3.
Proof.
  apply (DynArrayRestFacts.range_construction fresh_world
           (SeqIt [7; 8; 9]) (SeqIt []) a16 [7; 8; 9] [7; 8; 9]).
  - exact sizeof_probe.
  - exact wf_fresh_world.
  - reflexivity.
  - by exists [].
  - vm_compute. discriminate.
  - vm_compute. discriminate.
  - apply copied_same. by repeat constructor.
Defined.

Lemma init_list_construction_witness :
  constructs fresh_world (ctor_init_list [1; 2; 3] a16 fresh_world)
             [1; 2; 3] 3.
Proof.
  apply (DynArrayRestFacts.init_list_construction fresh_world [1; 2; 3] a16
           [1; 2; 3]).
  - exact sizeof_probe.
  - exact wf_fresh_world.
  - vm_compute. discriminate.
  - vm_compute. discriminate.
  - apply copied_same. by repeat constructor.
Defined.

Lemma copy_construction_witness :
  constructs two_arrays (ctor_copy 0 two_arrays) [1; 2; 3] 3.
Proof.
  apply (DynArrayRestFacts.copy_construction two_arrays 0 (mk a16 16 3)
           [1; 2; 3] [1; 2; 3]).
  - exact sizeof_probe.
  - exact wf_two_arrays.
  - reflexivity.
  - exact holds_two_arrays_0.
  - vm_compute. discriminate.
  - vm_compute. discriminate.
  - apply copied_same. by repeat constructor.
Defined.

Lemma destruction_witness :
  exists w',
    destructor 0 two_arrays = Ret tt w' /\
    heap_blocks w' !! 16 = None /\
    dtor_calls w' = 3%nat.
Proof.
  destruct (DynArrayRestFacts.destruction two_arrays 0 (mk a16 16 3)
              [1; 2; 3] eq_refl holds_two_arrays_0)
    as (w' & Hrun & _ & Hblocks & _ & _ & Hdtor).
  exists w'. split; [exact Hrun|]. split; [|exact Hdtor].
  rewrite Hblocks. reflexivity.
Defined.

Lemma construction_destruction_balance_witness :
  exists w',
    (construct_object 0 (ctor_sized 2 a16 (Some 9)) ;; destructor 0)
      fresh_world = Ret tt w' /\
    heap_blocks w' = heap_blocks fresh_world /\
    heap_free w' = heap_free fresh_world /\
    objects w' = objects fresh_world /\
    ctor_calls w' = 2%nat /\ dtor_calls w' = 2%nat.
Proof.
  apply (DynArrayRestFacts.construction_destruction_balance (H1 := fourth_throws) fresh_world 0
           a16 (Some 9) [9; 9]).
  - exact sizeof_probe.
  - exact wf_fresh_world.
  - reflexivity.
  - vm_compute. discriminate.
  - vm_compute. discriminate.
  - intros [|[|j]] y Hy; simpl in Hy; [by injection Hy as <-..|done].
Defined.



Lemma self_move_assignment_witness :
  exists w',
    move_assign 0 0 two_arrays = Ret tt w' /\
    moved_from w' 0 /\ dtor_calls w' = 3%nat.
Proof.
  destruct (DynArrayRestFacts.self_move_assignment two_arrays 0
              (mk a16 16 3) [1; 2; 3] eq_refl holds_two_arrays_0)
    as (w' & Hrun & Hmoved & _ & _ & _ & Hdtor).
  exists w'. done.
Defined.

Lemma front_and_back_witness :
  (let! r := front 0 in deref r) two_arrays = Ret 1 two_arrays /\
  (let! r := back 0 in deref r) two_arrays = Ret 3 two_arrays.
Proof.
  destruct (DynArrayRestFacts.front_and_back two_arrays 0 (mk a16 16 3)
              [1; 2; 3] eq_refl holds_two_arrays_0)
    as (_ & Hfront & Hback).
  split; [by apply Hfront | by apply Hback].
Defined.

Lemma indexed_read_witness :
  (let! r := op_index 0 1 in deref r) two_arrays = Ret 2 two_arrays /\
  (let! r := at_ 0 1 in deref r) two_arrays = Ret 2 two_arrays.
Proof.
  exact (DynArrayRestFacts.indexed_read two_arrays 0 (mk a16 16 3)
           [1; 2; 3] 1 2 eq_refl holds_two_arrays_0 eq_refl).
Defined.

Lemma forward_traversal_witness :
  (let! b := begin_ 0 in let! e := end_ 0 in traverse b e) two_arrays
  = Ret [1; 2; 3] two_arrays.
Proof.
  exact (proj1 (DynArrayRestFacts.forward_traversal two_arrays 0
                  (mk a16 16 3) [1; 2; 3] eq_refl holds_two_arrays_0)).
Defined.

Lemma reverse_traversal_witness :
  (let! b := rbegin 0 in let! e := rend 0 in rtraverse b e) two_arrays
  = Ret [3; 2; 1] two_arrays.
Proof.
  exact (proj1 (DynArrayRestFacts.reverse_traversal two_arrays 0
                  (mk a16 16 3) [1; 2; 3] eq_refl holds_two_arrays_0)).
Defined.

Lemma fill_assigns_witness :
  exists w',
    fill 0 (SeqIt [5]) two_arrays = Ret tt w' /\
    holds w' (mk a16 16 3) [5; 5; 5].
Proof.
  destruct (DynArrayRestFacts.fill_assigns two_arrays 0 (mk a16 16 3)
              [1; 2; 3] [5; 5; 5] (SeqIt [5]) 5)
    as (w' & Hrun & Hholds & _).
  - reflexivity.
  - exact holds_two_arrays_0.
  - by exists [].
  - simpl. tauto.
  - split; [done|]. intros j x y Hx Hy.
    assert (j < 3)%nat by (by apply lookup_lt_Some in Hy).
    destruct j as [|[|[|j]]]; simpl in Hy; [by injection Hy as <-..|lia].
  - exists w'. done.
Defined.

Lemma equality_witness :
  op_eq 0 1 two_arrays = Ret false two_arrays /\
  op_ne 0 1 two_arrays = Ret true two_arrays.
Proof.
  destruct (DynArrayRestFacts.equality two_arrays 0 1 (mk a16 16 3)
              (mk a16 32 1) [1; 2; 3] [7] eq_refl eq_refl
              holds_two_arrays_0 holds_two_arrays_1)
    as (b & Heq & Hne & Hb).
  destruct b.
  - destruct (proj1 Hb eq_refl) as [Hlen _]. discriminate.
  - done.
Defined.


Lemma allocate_deallocate_round_trip_witness :
  exists w2,
    AlignedAllocator.deallocate a64 64 3 after_aligned_allocation
    = Ret tt w2 /\
    heap_blocks w2 = heap_blocks fresh_world /\
    heap_free w2 = heap_free fresh_world.
Proof.
  destruct (AllocationFacts.allocate_deallocate_round_trip a64 3 fresh_world
              after_aligned_allocation 64)
    as (w2 & Hrun & Hblocks & Hfree & _).
  - exact sizeof_probe.
  - exact wf_fresh_world.
  - lia.
  - vm_compute. reflexivity.
  - exists w2. done.
Defined.

Lemma construction_out_of_memory_witness :
  ctor_sized 3 a16 (Some 9) nearly_full = Throw bad_alloc nearly_full /\
  ctor_init_list [1; 2; 3] a16 nearly_full = Throw bad_alloc nearly_full.
Proof.
  destruct (AllocationFacts.construction_out_of_memory (H1 := fourth_throws) nearly_full a16 3
              (Some 9) 7 (SeqIt [1; 2; 3]) (SeqIt []) [1; 2; 3])
    as (Hsized & _ & _ & Hlist).
  - exact sizeof_probe.
  - reflexivity.
  - reflexivity.
  - right. vm_compute. reflexivity.
  - done.
Defined.

End ScenarioRestFacts.
